(** * padelplan: the schedule-construction engine of padel_kampplan.py

    A shallow embedding of the match model, the candidate generator, the
    match-count selector, the scorer and the local search of
    [padel_kampplan.py], with the properties of the specification stated
    and proved over it.

    Conventions.
    - A [Player] is a Python [str]; [<] on [str] is the lexicographic order on
      code points, here [String.ltb] on the bytes of the name.
    - Python [int] is [Z]; [//] and [%] with a positive divisor are [Z.div]
      and [Z.modulo].
    - Python [float]: the scorer is given twice. [score_schedule] takes the
      float operations as exact rationals ([Q]; [inf] is the missing value
      of an [option Q]); the search is stated over it. [B64.score_schedule]
      has them in IEEE 754 binary64, as the program computes; what the
      scorer returns is stated over that one.
    - Exceptions are the [Raise] results of [result]. *)

From Stdlib Require Import PrimFloat.
From Stdlib Require SpecFloat FloatOps.
From Stdlib Require Import ZArith QArith Qround Lia.
From stdpp Require Import base option list gmap strings fin_maps.

Local Open Scope Z_scope.

(** ** Exceptions and results *)

Inductive exn : Type :=
| ZeroDivisionError
| IndexError
| ValueError.

Inductive result (A : Type) : Type :=
| Ok (a : A)
| Raise (e : exn).
Arguments Ok {A} a.
Arguments Raise {A} e.

(** ** Types (source: [Player], [Team], [Match]) *)

Abbreviation Player := string (only parsing).
Abbreviation Team := (string * string)%type (only parsing).

Record Match : Type := mkMatch { a : Team; b : Team }.

Global Instance Match_eq_dec : EqDecision Match.
Proof. solve_decision. Defined.

(** [Match.players] *)
Definition players_of (m : Match) : list Player :=
  [ (a m).1; (a m).2; (b m).1; (b m).2 ].

(** [Match.resting] *)
Definition resting (m : Match) (all_players : list Player) : list Player :=
  filter (fun p => p ∉ players_of m) all_players.

(** ** Comparisons of [str] and of tuples of [str] *)

(** [x < y] on [str] *)
Definition str_lt (x y : Player) : bool := String.ltb x y.

(** [t1 < t2] on 2-tuples: the first position where the tuples differ
    decides; equal tuples are not smaller. *)
Definition team_lt (t1 t2 : Team) : bool :=
  if decide (t1.1 = t2.1)
  then (if decide (t1.2 = t2.2) then false else str_lt t1.2 t2.2)
  else str_lt t1.1 t2.1.

(** [t1 > t2] on 2-tuples; [x > y] on [str] is [y < x]. *)
Definition team_gt (t1 t2 : Team) : bool :=
  if decide (t1.1 = t2.1)
  then (if decide (t1.2 = t2.2) then false else str_lt t2.2 t1.2)
  else str_lt t2.1 t1.1.

(** ** Helpers *)

Definition pair_key (x y : Player) : Player * Player :=
  if str_lt x y then (x, y) else (y, x).

(** [tuple(sorted(t))] on a 2-tuple: the list sort swaps the two entries
    exactly when the second is smaller than the first. *)
Definition normalize_team (t : Player * Player) : Team :=
  if str_lt t.2 t.1 then (t.2, t.1) else (t.1, t.2).

(** [min(x, y)] keeps [x] unless [y < x]; [max(x, y)] keeps [x] unless
    [y > x]. *)
Definition team_min (x y : Team) : Team := if team_lt y x then y else x.
Definition team_max (x y : Team) : Team := if team_gt y x then y else x.

Definition normalize_match (t1 t2 : Team) : Match :=
  let a := normalize_team t1 in
  let b := normalize_team t2 in
  mkMatch (team_min a b) (team_max a b).

(** A call of [normalize_match] as the interpreter sees it: the body has no
    [raise] and calls nothing that raises, so every call returns. *)
Definition normalize_match_call (t1 t2 : Team) : result Match :=
  Ok (normalize_match t1 t2).

(** Two teams are disjoint when they share no participant. *)
Definition teams_disjoint (t1 t2 : Team) : Prop :=
  t1.1 ≠ t2.1 ∧ t1.1 ≠ t2.2 ∧ t1.2 ≠ t2.1 ∧ t1.2 ≠ t2.2.

(** ** Match-count selector *)

Definition perfect_possible (n : Z) : bool :=
  bool_decide ((n * (n - 1)) `mod` 4 = 0).

(** [math.ceil((n * (n - 1) / 2) / 2)]: both divisions are true divisions,
    taken exactly here. In binary64 they are exact as long as
    [n * (n - 1) < 2^53]; the properties of [choose_match_count] are stated
    within that bound. *)
Definition min_for_teammates (n : Z) : Z :=
  Qceiling (inject_Z (n * (n - 1)) / 2 / 2)%Q.

(** [n // math.gcd(n, 4)] *)
Definition base (n : Z) : Z := n `div` Z.gcd n 4.

Definition choose_match_count (n : Z) : Z * bool :=
  if perfect_possible n then ((n * (n - 1)) `div` 4, true)
  else
    let M := Z.max (base n) (min_for_teammates n) in
    let M := if bool_decide (M `mod` base n ≠ 0)
             then M + (base n - M `mod` base n) else M in
    (M, false).

(** ** Binomial coefficients, for the counts of the specification *)

(** [binomial n k] is C(n,k), by Pascal's rule. *)
Fixpoint binomial (n k : nat) : nat :=
  match k, n with
  | O, _ => 1
  | S _, O => 0
  | S k', S n' => binomial n' k' + binomial n' k
  end.

(** The specification's lower bound [ceil(C(N,2) / 2)]. *)
Definition min_for_teammates_spec (n : nat) : Z :=
  Qceiling (inject_Z (Z.of_nat (binomial n 2)) / 2)%Q.

(** [M] is the smallest multiple of [d] that is at least [lo]. *)
Definition smallest_multiple_ge (d lo M : Z) : Prop :=
  (d | M) ∧ lo ≤ M ∧ ∀ k : Z, (d | k) → lo ≤ k → M ≤ k.

(** ** Insertion-ordered dictionaries

    [list(d.values())] of a Python [dict] lists the values in the order in
    which their keys were first inserted; an assignment to a key that is
    present replaces the value in place. The candidate list is read by
    position later on, so this order is part of [generate_candidate_matches]. *)

(** [d[k] = v] *)
Fixpoint dict_setitem {K V : Type} `{EqDecision K}
    (d : list (K * V)) (k : K) (v : V) : list (K * V) :=
  match d with
  | [] => [(k, v)]
  | (k', v') :: d' =>
      if decide (k' = k) then (k', v) :: d'
      else (k', v') :: dict_setitem d' k v
  end.

(** [list(d.values())] *)
Definition dict_values {K V : Type} (d : list (K * V)) : list V := d.*2.

(** ** Candidate matches *)

(** [itertools.combinations(l, r)]: the [r]-element subsequences of [l], in
    the order the iterator yields them (lexicographic in the positions). *)
Fixpoint combinations {A : Type} (l : list A) (r : nat) {struct l}
    : list (list A) :=
  match r, l with
  | O, _ => [[]]
  | S _, [] => []
  | S r', x :: l' => map (cons x) (combinations l' r') ++ combinations l' r
  end.

(** The key [(m.a, m.b)] under which a match is remembered. *)
Definition match_key (m : Match) : Team * Team := (a m, b m).

(** The loop of [all_team_partitions_of_four] over [pairings], with the set
    [seen] and the list [matches] as its state. *)
Fixpoint partitions_loop (pairings : list (Team * Team))
    (seen : gset (Team * Team)) (matches : list Match) : list Match :=
  match pairings with
  | [] => matches
  | (t1, t2) :: rest =>
      let m := normalize_match t1 t2 in
      let key := match_key m in
      if decide (key ∈ seen) then partitions_loop rest seen matches
      else partitions_loop rest ({[key]} ∪ seen) (matches ++ [m])
  end.

(** [p = list(p4)] is indexed at 0..3: a tuple with fewer than four entries
    raises [IndexError]. *)
Definition all_team_partitions_of_four (p4 : list Player)
    : result (list Match) :=
  match p4 with
  | p0 :: p1 :: p2 :: p3 :: _ =>
      let pairings :=
        [ ((p0, p1), (p2, p3));
          ((p0, p2), (p1, p3));
          ((p0, p3), (p1, p2)) ] in
      Ok (partitions_loop pairings ∅ [])
  | _ => Raise IndexError
  end.

(** The first loop of [generate_candidate_matches]:
    [candidates.extend(all_team_partitions_of_four(p4))] for each [p4]. *)
Fixpoint extend_candidates (combos : list (list Player))
    (candidates : list Match) : result (list Match) :=
  match combos with
  | [] => Ok candidates
  | p4 :: rest =>
      match all_team_partitions_of_four p4 with
      | Ok ms => extend_candidates rest (candidates ++ ms)
      | Raise e => Raise e
      end
  end.

(** The second loop: [uniq[(m.a, m.b)] = m] for each candidate. *)
Definition uniq_of (candidates : list Match)
    : list (Team * Team * Match) :=
  foldl (fun uniq m => dict_setitem uniq (match_key m) m) [] candidates.

Definition generate_candidate_matches (players : list Player)
    : result (list Match) :=
  match extend_candidates (combinations players 4) [] with
  | Ok candidates => Ok (dict_values (uniq_of candidates))
  | Raise e => Raise e
  end.

(** A match is canonical when normalising its two teams gives it back. *)
Definition canonical (m : Match) : Prop := normalize_match (a m) (b m) = m.

(** [p] and [q] form one of the two teams of [m], in either order. *)
Definition mates (m : Match) (p q : Player) : Prop :=
  a m = (p, q) ∨ a m = (q, p) ∨ b m = (p, q) ∨ b m = (q, p).

(** The matches [all_team_partitions_of_four] returns, when it returns. *)
Definition partitions (p4 : list Player) : list Match :=
  match all_team_partitions_of_four p4 with
  | Ok ms => ms
  | Raise _ => []
  end.

(** ** Configuration

    The module-level constants of the source, gathered in one record so
    that the search can also be run with other values. *)

Record Config : Type := mkConfig {
  RANDOM_SEED : Z;
  SEARCH_RESTARTS : nat;
  LOCAL_STEPS : nat;
  CANDIDATE_SAMPLE : nat;
  W_PLAY_BALANCE : Q;
  W_TEAMMATE_MISSING : Q;
  W_TEAMMATE_REPEAT : Q;
  W_OPP_REPEAT : Q;
  W_CONSEC_REST : Q;
  W_PERFECT_DEVIATION : Q
}.

(** The values written in [padel_kampplan.py]. *)
Definition module_config : Config :=
  {| RANDOM_SEED := 42;
     SEARCH_RESTARTS := 180;
     LOCAL_STEPS := 3500;
     CANDIDATE_SAMPLE := 1200;
     W_PLAY_BALANCE := 10;
     W_TEAMMATE_MISSING := 25;
     W_TEAMMATE_REPEAT := 6;
     W_OPP_REPEAT := 2;
     W_CONSEC_REST := 12 # 10;
     W_PERFECT_DEVIATION := 40 |}.

(** ** Scoring *)

(** [sum(...)] over integers and over floats. *)
Definition Zsum (l : list Z) : Z := foldr Z.add 0 l.
Definition Qsum (l : list Q) : Q := foldr Qplus 0%Q l.

(** [d[k] = d.get(k, 0) + 1] *)
Definition incr `{Countable K} (d : gmap K Z) (k : K) : gmap K Z :=
  <[k := default 0 (d !! k) + 1]> d.

(** The variables that the main loop of [score_schedule] updates.
    [rest_streak_pen] is a float in the source; it only ever holds sums of
    integers. A subscript [d[p]] reads a key that the dictionary was built
    with, so it is a total lookup here. *)
Record score_state : Type := mkScoreState {
  teammate_counts : gmap (Player * Player) Z;
  opp_counts : gmap (Player * Player) Z;
  plays : gmap Player Z;
  rest_streak : gmap Player Z;
  rest_streak_pen : Z
}.

(** [{p: 0 for p in players}] *)
Definition zero_dict (players : list Player) : gmap Player Z :=
  foldl (fun d p => <[p := 0]> d) ∅ players.

Definition score_init (players : list Player) : score_state :=
  {| teammate_counts := ∅; opp_counts := ∅;
     plays := zero_dict players; rest_streak := zero_dict players;
     rest_streak_pen := 0 |}.

(** The body of [for p in players]. *)
Definition player_step (in_match : gset Player) (st : score_state)
    (p : Player) : score_state :=
  if decide (p ∈ in_match) then
    {| teammate_counts := teammate_counts st; opp_counts := opp_counts st;
       plays := <[p := plays st !!! p + 1]> (plays st);
       rest_streak := <[p := 0]> (rest_streak st);
       rest_streak_pen := rest_streak_pen st |}
  else
    let r := rest_streak st !!! p + 1 in
    {| teammate_counts := teammate_counts st; opp_counts := opp_counts st;
       plays := plays st;
       rest_streak := <[p := r]> (rest_streak st);
       rest_streak_pen :=
         if decide (2 ≤ r) then rest_streak_pen st + (r - 1)
         else rest_streak_pen st |}.

(** The keys counted for one match: its two teams, and the four pairs of
    opponents in the order of [for x in m.a: for y in m.b]. *)
Definition team_keys (m : Match) : list (Player * Player) :=
  [ pair_key (a m).1 (a m).2; pair_key (b m).1 (b m).2 ].

Definition opp_keys (m : Match) : list (Player * Player) :=
  [ pair_key (a m).1 (b m).1; pair_key (a m).1 (b m).2;
    pair_key (a m).2 (b m).1; pair_key (a m).2 (b m).2 ].

(** The body of [for m in schedule]. *)
Definition match_step (players : list Player) (st : score_state)
    (m : Match) : score_state :=
  let in_match : gset Player := list_to_set (players_of m) in
  let st := foldl (player_step in_match) st players in
  {| teammate_counts := foldl incr (teammate_counts st) (team_keys m);
     opp_counts := foldl incr (opp_counts st) (opp_keys m);
     plays := plays st; rest_streak := rest_streak st;
     rest_streak_pen := rest_streak_pen st |}.

(** [[pair_key(players[i], players[j]) for i in range(n)
      for j in range(i + 1, n)]] *)
Fixpoint all_pairs (players : list Player) : list (Player * Player) :=
  match players with
  | [] => []
  | x :: rest => map (pair_key x) rest ++ all_pairs rest
  end.

(** The body of [for pk in all_pairs], on [(missing, deviation_from_one,
    repeats)]. *)
Definition pair_step (tc : gmap (Player * Player) Z) (perfect_mode : bool)
    (acc : Z * Z * Z) (pk : Player * Player) : Z * Z * Z :=
  let '(missing, deviation_from_one, repeats) := acc in
  let c := default 0 (tc !! pk) in
  let missing := if decide (c = 0) then missing + 1 else missing in
  let deviation_from_one :=
    if perfect_mode then deviation_from_one + Z.abs (c - 1)
    else deviation_from_one in
  (missing, deviation_from_one, repeats + Z.max 0 (c - 1)).

(** [list(d.values())] of a [gmap]; only sums of it are taken. *)
Definition values `{Countable K} {V : Type} (d : gmap K V) : list V :=
  (map_to_list d).*2.

Definition score_schedule (cfg : Config) (schedule : list Match)
    (players : list Player) (perfect_mode : bool) : result Q :=
  let n := length players in
  let st := foldl (match_step players) (score_init players) schedule in
  let play_vals := values (plays st) in
  if decide (n = 0%nat) then Raise ZeroDivisionError else
  let nq := inject_Z (Z.of_nat n) in
  let mean_play := (inject_Z (Zsum play_vals) / nq)%Q in
  let var_play :=
    (Qsum (map (fun v => (inject_Z v - mean_play) ^ 2) play_vals) / nq)%Q in
  let '(missing, deviation_from_one, repeats) :=
    foldl (pair_step (teammate_counts st) perfect_mode) (0, 0, 0)
          (all_pairs players) in
  let opp_repeats :=
    Zsum (map (fun c => Z.max 0 (c - 1)) (values (opp_counts st))) in
  let total :=
    (W_PLAY_BALANCE cfg * var_play
     + W_TEAMMATE_MISSING cfg * inject_Z (missing ^ 2)
     + W_TEAMMATE_REPEAT cfg * inject_Z repeats
     + W_OPP_REPEAT cfg * inject_Z opp_repeats
     + W_CONSEC_REST cfg * inject_Z (rest_streak_pen st))%Q in
  let total :=
    if perfect_mode
    then (total + W_PERFECT_DEVIATION cfg * inject_Z deviation_from_one)%Q
    else total in
  Ok total.

(** ** The score as the specification words it

    These definitions follow the text of the specification (section 4.4),
    one quantity at a time, with no dictionaries and no running state. *)

Module Spec.

(** Play count: the number of matches of the schedule that [p] plays. *)
Definition play_count (schedule : list Match) (p : Player) : Z :=
  Z.of_nat (length (filter (fun m => p ∈ players_of m) schedule)).

(** Variance of the play counts across all participants. *)
Definition play_variance (schedule : list Match) (players : list Player) : Q :=
  let n := inject_Z (Z.of_nat (length players)) in
  let counts := map (play_count schedule) players in
  let mean := (inject_Z (Zsum counts) / n)%Q in
  (Qsum (map (fun v => (inject_Z v - mean) ^ 2) counts) / n)%Q.

(** The lengths of the maximal runs of consecutive matches that [p] is
    absent from; [cur] is the length of the run in progress. *)
Fixpoint absence_runs (p : Player) (schedule : list Match) (cur : nat)
    : list nat :=
  match schedule with
  | [] => [cur]
  | m :: rest =>
      if decide (p ∈ players_of m) then cur :: absence_runs p rest O
      else absence_runs p rest (S cur)
  end.

(** What a rest streak of length [L] costs: [1 + 2 + ... + (L - 1)]. *)
Fixpoint streak_cost (L : nat) : Z :=
  match L with
  | O => 0
  | S L' => streak_cost L' + Z.of_nat L'
  end.

Definition rest_penalty (schedule : list Match) (players : list Player) : Z :=
  Zsum (map (fun p => Zsum (map streak_cost (absence_runs p schedule O)))
            players).

(** [t] is the team of [p] and [q], in either order. *)
Definition is_pair (pq t : Player * Player) : Prop :=
  t = pq ∨ t = (pq.2, pq.1).

Global Instance is_pair_dec pq t : Decision (is_pair pq t).
Proof. unfold is_pair. apply _. Defined.

(** How many times [p] and [q] appear as teammates across the schedule. *)
Definition teammate_count (schedule : list Match) (pq : Player * Player) : Z :=
  Z.of_nat (length (filter (is_pair pq)
                           (schedule ≫= fun m => [a m; b m]))).

(** Every unordered pair of participants of the roster, once. *)
Fixpoint roster_pairs (players : list Player) : list (Player * Player) :=
  match players with
  | [] => []
  | x :: rest => map (pair x) rest ++ roster_pairs rest
  end.

Definition missing (schedule : list Match) (players : list Player) : Z :=
  Z.of_nat (length (filter (fun pq => teammate_count schedule pq = 0)
                           (roster_pairs players))).

Definition repeats (schedule : list Match) (players : list Player) : Z :=
  Zsum (map (fun pq => Z.max 0 (teammate_count schedule pq - 1))
            (roster_pairs players)).

Definition deviation (schedule : list Match) (players : list Player) : Z :=
  Zsum (map (fun pq => Z.abs (teammate_count schedule pq - 1))
            (roster_pairs players)).

(** The pairs of opponents of one match, and of the whole schedule. *)
Definition opponents (m : Match) : list (Player * Player) :=
  [ ((a m).1, (b m).1); ((a m).1, (b m).2);
    ((a m).2, (b m).1); ((a m).2, (b m).2) ].

(** How many times [p] and [q] face each other across the schedule. *)
Definition opponent_count (schedule : list Match) (pq : Player * Player) : Z :=
  Z.of_nat (length (filter (is_pair pq) (schedule ≫= opponents))).

(** The unordered pairs that ever appear on opposite teams, each once,
    named by their PairKey. *)
Definition opponent_pairs (schedule : list Match) : list (Player * Player) :=
  remove_dups (map (fun xy => pair_key xy.1 xy.2) (schedule ≫= opponents)).

Definition opponent_repeats (schedule : list Match) : Z :=
  Zsum (map (fun pq => Z.max 0 (opponent_count schedule pq - 1))
            (opponent_pairs schedule)).

(** The weighted sum of section 4.4. *)
Definition score (schedule : list Match) (players : list Player)
    (perfect_mode : bool) : Q :=
  (10 * play_variance schedule players
   + 25 * inject_Z (missing schedule players ^ 2)
   + 6 * inject_Z (repeats schedule players)
   + 2 * inject_Z (opponent_repeats schedule)
   + (12 # 10) * inject_Z (rest_penalty schedule players)
   + (if perfect_mode then 40 * inject_Z (deviation schedule players)
      else 0))%Q.

End Spec.

(** The number of occurrences of [k] in [L]. *)
Definition occ `{EqDecision K} (k : K) (L : list K) : Z :=
  Z.of_nat (length (filter (k =.) L)).

(** ** One participant's share of the main loop of [score_schedule]

    The rest streak of [p] after the schedule, and what [p] adds to
    [rest_streak_pen], when the streak is [r] before the first match. *)

Fixpoint streak_after (p : Player) (schedule : list Match) (r : Z) : Z :=
  match schedule with
  | [] => r
  | m :: rest =>
      if decide (p ∈ players_of m) then streak_after p rest 0
      else streak_after p rest (r + 1)
  end.

Fixpoint pen_from (p : Player) (schedule : list Match) (r : Z) : Z :=
  match schedule with
  | [] => 0
  | m :: rest =>
      if decide (p ∈ players_of m) then pen_from p rest 0
      else (if decide (2 ≤ r + 1) then r else 0) + pen_from p rest (r + 1)
  end.

(** ** The pseudo-random source

    [random.Random] belongs to the Python library, not to this program. It
    is an interface here: a state, its construction from a seed, the
    primitive [_randbelow(n)] (which returns a number below [n] for a
    positive [n]) and [sample]. [randrange] and [choice] are written from
    it as the library does. *)

Class Random : Type := {
  rng_state : Type;
  seed_state : Z → rng_state;
  randbelow : nat → rng_state → nat * rng_state;
  sample : list Match → nat → rng_state → list Match * rng_state;
  randbelow_lt : ∀ n g, (0 < n)%nat → ((randbelow n g).1 < n)%nat
}.

(** A small linear congruential generator, to run the search on examples. *)
Definition lcg_next (g : Z) : Z := (g * 1103515245 + 12345) `mod` 2147483648.

Lemma lcg_randbelow_lt (n : nat) (g : Z) :
  (0 < n)%nat → (Z.to_nat (g `mod` Z.of_nat n) < n)%nat.
Proof.
  intros Hn. pose proof (Z.mod_pos_bound g (Z.of_nat n)). lia.
Qed.

Definition lcg : Random :=
  {| rng_state := Z;
     seed_state := fun seed => seed;
     randbelow := fun n g => (Z.to_nat (g `mod` Z.of_nat n), lcg_next g);
     sample := fun l k g => (take k l, lcg_next g);
     randbelow_lt := fun n g Hn => lcg_randbelow_lt n g Hn |}.

(** ** Local search *)

Section search.
Context `{Random}.

(** A computation that uses the generator and may raise. *)
Definition M (A : Type) : Type := rng_state → result (A * rng_state).

Definition ret {A : Type} (x : A) : M A := fun g => Ok (x, g).

Definition bind {A B : Type} (m : M A) (f : A → M B) : M B :=
  fun g => match m g with
           | Ok (x, g') => f x g'
           | Raise e => Raise e
           end.

Definition lift {A : Type} (r : result A) : M A :=
  fun g => match r with
           | Ok x => Ok (x, g)
           | Raise e => Raise e
           end.

Definition raise {A : Type} (e : exn) : M A := fun _ => Raise e.

Local Notation "'do' x <- m ; k" := (bind m (fun x => k))
  (at level 200, x name, m at level 100, k at level 200).

(** [for _ in range(n)] over a loop state. *)
Fixpoint repeatM {S : Type} (n : nat) (body : S → M S) (s : S) : M S :=
  match n with
  | O => ret s
  | Datatypes.S n' => do s' <- body s; repeatM n' body s'
  end.

(** [[e for _ in range(n)]] *)
Fixpoint listM {A : Type} (n : nat) (e : M A) : M (list A) :=
  match n with
  | O => ret []
  | Datatypes.S n' => do x <- e; do xs <- listM n' e; ret (x :: xs)
  end.

(** [rng.randrange(stop)] *)
Definition randrange (stop : nat) : M nat :=
  if decide (0 < stop)%nat then fun g => Ok (randbelow stop g)
  else raise ValueError.

(** [seq[i]] and [seq[i] = v] *)
Definition getitem {A : Type} (seq : list A) (i : nat) : result A :=
  match seq !! i with
  | Some x => Ok x
  | None => Raise IndexError
  end.

Definition setitem {A : Type} (seq : list A) (i : nat) (v : A)
    : result (list A) :=
  if decide (i < length seq)%nat then Ok (<[i := v]> seq)
  else Raise IndexError.

(** [rng.choice(seq)] *)
Definition choice {A : Type} (seq : list A) : M A :=
  if decide (length seq = 0%nat) then raise IndexError
  else do i <- (fun g => Ok (randbelow (length seq) g)); lift (getitem seq i).

(** [s < best_score] on floats. *)
Definition Qltb (x y : Q) : bool := negb (Qle_bool y x).

(** The body of the loop of [improve_schedule], on [(best, best_score)]. *)
Definition improve_step (cfg : Config) (candidates : list Match)
    (players : list Player) (perfect_mode : bool)
    (st : list Match * Q) : M (list Match * Q) :=
  let '(best, best_score) := st in
  let new := best in
  do i <- randrange (length new);
  do c <- choice candidates;
  do new <- lift (setitem new i c);
  do s <- lift (score_schedule cfg new players perfect_mode);
  if Qltb s best_score then ret (new, s) else ret (best, best_score).

Definition improve_schedule (cfg : Config) (init : list Match)
    (candidates : list Match) (players : list Player) (perfect_mode : bool)
    (steps : nat) : M (list Match) :=
  let best := init in
  do best_score <- lift (score_schedule cfg best players perfect_mode);
  do st <- repeatM steps
             (improve_step cfg candidates players perfect_mode)
             (best, best_score);
  ret st.1.

(** [if len(candidates) > CANDIDATE_SAMPLE:
       candidates = rng.sample(candidates, CANDIDATE_SAMPLE)] *)
Definition subsample (cfg : Config) (candidates : list Match)
    : M (list Match) :=
  if decide (CANDIDATE_SAMPLE cfg < length candidates)%nat
  then fun g => Ok (sample candidates (CANDIDATE_SAMPLE cfg) g)
  else ret candidates.

(** The body of the restart loop, on [(best_schedule, best_score)];
    [float("inf")] is [None]. *)
Definition restart_step (cfg : Config) (candidates : list Match)
    (players : list Player) (M_ : Z) (perfect_mode : bool)
    (st : list Match * option Q) : M (list Match * option Q) :=
  let '(best_schedule, best_score) := st in
  do init <- listM (Z.to_nat M_) (choice candidates);
  do improved <- improve_schedule cfg init candidates players perfect_mode
                   (LOCAL_STEPS cfg);
  do s <- lift (score_schedule cfg improved players perfect_mode);
  if match best_score with None => true | Some bs => Qltb s bs end
  then ret (improved, Some s) else ret (best_schedule, best_score).

(** The part of [build_schedule] that runs on the generator. *)
Definition build_schedule_on (cfg : Config) (players : list Player)
    : M (list Match * Z * bool) :=
  let n := length players in
  let '(M_, perfect_mode) := choose_match_count (Z.of_nat n) in
  do candidates <- lift (generate_candidate_matches players);
  do candidates <- subsample cfg candidates;
  do st <- repeatM (SEARCH_RESTARTS cfg)
             (restart_step cfg candidates players M_ perfect_mode)
             ([], None);
  ret (st.1, M_, perfect_mode).

(** [build_schedule]: the generator is made from the seed inside the call,
    and nothing of it is kept afterwards. *)
Definition build_schedule (cfg : Config) (players : list Player)
    : result (list Match * Z * bool) :=
  match build_schedule_on cfg players (seed_state (RANDOM_SEED cfg)) with
  | Ok (out, _) => Ok out
  | Raise e => Raise e
  end.

End search.

(** What the hill climb keeps true of [(best, best_score)]. *)
Definition improve_inv (cfg : Config) (init candidates : list Match)
    (ps : list Player) (pm : bool) (s0 : Q) (st : list Match * Q) : Prop :=
  length st.1 = length init ∧
  Forall (λ m, m ∈ init ∨ m ∈ candidates) st.1 ∧
  score_schedule cfg st.1 ps pm = Ok st.2 ∧
  (st.2 <= s0)%Q.

(** What the restart loop keeps true of [(best_schedule, best_score)] once
    a first restart has been scored. *)
Definition restart_inv (cfg : Config) (candidates : list Match)
    (ps : list Player) (M_ : Z) (pm : bool)
    (st : list Match * option Q) : Prop :=
  ∃ s, st.2 = Some s ∧
       length st.1 = Z.to_nat M_ ∧
       Forall (λ m, m ∈ candidates) st.1 ∧
       score_schedule cfg st.1 ps pm = Ok s.

(** A configuration with the weights of the source and a search short
    enough to be run here. *)
Definition short_config : Config :=
  {| RANDOM_SEED := 42;
     SEARCH_RESTARTS := 2;
     LOCAL_STEPS := 4;
     CANDIDATE_SAMPLE := 1200;
     W_PLAY_BALANCE := 10;
     W_TEAMMATE_MISSING := 25;
     W_TEAMMATE_REPEAT := 6;
     W_OPP_REPEAT := 2;
     W_CONSEC_REST := 12 # 10;
     W_PERFECT_DEVIATION := 40 |}.

(** ** [main], from the roster on

    Reading the names and writing the files are input and output; what is
    kept of [main] is the guard on the number of names and the call of
    [build_schedule]. [Planned] stands for reaching the export of the
    schedule, [Crashed] for an exception that leaves [build_schedule]. *)

Inductive main_outcome : Type :=
| SystemExit (msg : string)
| Planned (schedule : list Match) (M_ : Z) (perfect_mode : bool)
| Crashed (e : exn).

Definition main_plan `{Random} (cfg : Config) (players : list Player)
    : main_outcome :=
  if decide (length players < 4 ∨ 8 < length players)%nat
  then SystemExit "Du må ha mellom 4 og 8 spillere."
  else match build_schedule cfg players with
       | Ok (schedule, M_, perfect_mode) => Planned schedule M_ perfect_mode
       | Raise e => Crashed e
       end.

(** [p] is absent from two consecutive matches of the schedule. *)
Fixpoint rests_twice (p : Player) (schedule : list Match) : Prop :=
  match schedule with
  | m1 :: rest =>
      match rest with
      | m2 :: _ => (p ∉ players_of m1 ∧ p ∉ players_of m2) ∨ rests_twice p rest
      | [] => False
      end
  | [] => False
  end.

(** ** The diagnostic report

    [report] prints; the model returns what is printed: the dictionary
    [plays] behind the lines of "Kamper per spiller" (the source prints its
    items sorted by count, then name), the two numbers of the coverage line
    [len(all_pairs) - missing] and [len(all_pairs)], the total of teammate
    repeats, and whether the line of the perfect mode is printed.
    [plays[p] += 1] raises [KeyError] for a name that is no key. *)

Inductive report_outcome : Type :=
  | Printed (counts : gmap Player Z) (covered total repeats : Z)
            (perfect_line : bool)
  | KeyError (p : Player).

(** [for p in m.players(): plays[p] += 1] *)
Fixpoint count_plays (counts : gmap Player Z) (ps : list Player)
    : gmap Player Z + Player :=
  match ps with
  | [] => inl counts
  | p :: rest =>
      match counts !! p with
      | Some c => count_plays (<[p := c + 1]> counts) rest
      | None => inr p
      end
  end.

(** [for m in schedule] of [report]. *)
Fixpoint report_loop (counts : gmap Player Z)
    (tc : gmap (Player * Player) Z) (schedule : list Match)
    : gmap Player Z * gmap (Player * Player) Z + Player :=
  match schedule with
  | [] => inl (counts, tc)
  | m :: rest =>
      match count_plays counts (players_of m) with
      | inl counts => report_loop counts (foldl incr tc (team_keys m)) rest
      | inr p => inr p
      end
  end.

Definition report (schedule : list Match) (players : list Player)
    (perfect_mode : bool) : report_outcome :=
  match report_loop (zero_dict players) ∅ schedule with
  | inr p => KeyError p
  | inl (counts, tc) =>
      let pairs := all_pairs players in
      let missing :=
        Z.of_nat (length (filter (λ pk, default 0 (tc !! pk) = 0) pairs)) in
      let repeats :=
        Zsum (map (λ pk, Z.max 0 (default 0 (tc !! pk) - 1)) pairs) in
      Printed counts (Z.of_nat (length pairs) - missing)
              (Z.of_nat (length pairs)) repeats perfect_mode
  end.

(** ** The score in binary64

    [score_schedule] above takes the float operations of the source as
    exact. The module [B64] is the same function with the float operations
    as the program performs them: IEEE 754 binary64, every operation rounded
    to nearest, in the order of the source text.
    - An [int] that meets a float is converted first ([float_of_Z]); the
      conversion is exact below 2^53, and so is the true division of two
      such integers taken as the division of their conversions.
    - [rest_streak_pen] is a float that only ever has integers added to it;
      it is kept as the integer it holds, which is exact below 2^53.
    - [sum] adds from the left, starting from the integer 0, and [x ** 2] is
      the rounded product [x * x].
    - [plays.values()] lists the counts in the insertion order of the keys,
      which is the order of first occurrence in the roster. *)

(** The keys of [{p: 0 for p in players}], in insertion order. *)
Definition dict_keys (players : list Player) : list Player :=
  (foldl (λ d p, dict_setitem d p 0) [] players).*1.


Module B64.

(** [float(z)]: the nearest binary64 number, ties to even. *)
Definition float_of_Z (z : Z) : float :=
  FloatOps.SF2Prim
    (SpecFloat.binary_normalize FloatOps.prec FloatOps.emax z 0 false).

Definition W_PLAY_BALANCE : float := 10.
Definition W_TEAMMATE_MISSING : float := 25.
Definition W_TEAMMATE_REPEAT : float := 6.
Definition W_OPP_REPEAT : float := 2.
(** The literal [1.2], that is the binary64 number nearest to 6/5. *)
Definition W_CONSEC_REST : float := 0x1.3333333333333p+0.
Definition W_PERFECT_DEVIATION : float := 40.

(** [sum(...)] of floats. *)
Definition fsum (l : list float) : float :=
  foldl PrimFloat.add (float_of_Z 0) l.

Definition score_schedule (schedule : list Match) (players : list Player)
    (perfect_mode : bool) : result float :=
  let n := length players in
  let st := foldl (match_step players) (score_init players) schedule in
  let play_vals :=
    map (fun p => default 0 (plays st !! p)) (dict_keys players) in
  if decide (n = 0%nat) then Raise ZeroDivisionError else
  let nf := float_of_Z (Z.of_nat n) in
  let mean_play := (float_of_Z (Zsum play_vals) / nf)%float in
  let var_play :=
    (fsum (map (fun v => let d := (float_of_Z v - mean_play)%float in
                         (d * d)%float) play_vals) / nf)%float in
  let '(missing, deviation_from_one, repeats) :=
    foldl (pair_step (teammate_counts st) perfect_mode) (0, 0, 0)
          (all_pairs players) in
  let opp_repeats :=
    Zsum (map (fun c => Z.max 0 (c - 1)) (values (opp_counts st))) in
  let total :=
    (W_PLAY_BALANCE * var_play
     + W_TEAMMATE_MISSING * float_of_Z (missing ^ 2)
     + W_TEAMMATE_REPEAT * float_of_Z repeats
     + W_OPP_REPEAT * float_of_Z opp_repeats
     + W_CONSEC_REST * float_of_Z (rest_streak_pen st))%float in
  let total :=
    if perfect_mode
    then (total + W_PERFECT_DEVIATION * float_of_Z deviation_from_one)%float
    else total in
  Ok total.



End B64.

(** * Properties *)

(** ** The order on names *)

Lemma str_lt_irrefl (x : Player) : str_lt x x = false.
Proof.
  unfold str_lt, String.ltb.
  pose proof (String.compare_antisym x x) as H.
  destruct (String.compare x x); simpl in H; congruence.
Qed.

Lemma str_lt_asym (x y : Player) : str_lt x y = true → str_lt y x = false.
Proof.
  unfold str_lt, String.ltb. rewrite (String.compare_antisym y x).
  destruct (String.compare x y); simpl; congruence.
Qed.

Lemma str_lt_total (x y : Player) :
  str_lt x y = false → str_lt y x = false → x = y.
Proof.
  unfold str_lt, String.ltb. rewrite (String.compare_antisym y x).
  destruct (String.compare x y) eqn:E; simpl; try congruence.
  intros _ _. by apply String.compare_eq_iff.
Qed.

Lemma team_gt_lt (t1 t2 : Team) : team_gt t1 t2 = team_lt t2 t1.
Proof.
  unfold team_gt, team_lt. repeat case_decide; congruence.
Qed.

Lemma team_lt_irrefl (t : Team) : team_lt t t = false.
Proof. unfold team_lt. repeat case_decide; congruence. Qed.

Lemma team_lt_asym (t1 t2 : Team) : team_lt t1 t2 = true → team_lt t2 t1 = false.
Proof.
  unfold team_lt. repeat case_decide; try congruence; apply str_lt_asym.
Qed.

Lemma team_lt_total (t1 t2 : Team) :
  team_lt t1 t2 = false → team_lt t2 t1 = false → t1 = t2.
Proof.
  destruct t1 as [x1 y1], t2 as [x2 y2]. unfold team_lt; simpl.
  repeat case_decide; subst; try congruence; intros Hlt Hgt;
    exfalso; eauto using str_lt_total.
Qed.

(** ** Canonical form *)

Lemma normalize_team_swap (x y : Player) :
  normalize_team (y, x) = normalize_team (x, y).
Proof.
  unfold normalize_team; simpl.
  destruct (str_lt x y) eqn:Hxy, (str_lt y x) eqn:Hyx; try done.
  - apply str_lt_asym in Hxy. congruence.
  - by rewrite (str_lt_total _ _ Hxy Hyx).
Qed.

Lemma team_min_comm (s t : Team) : team_min s t = team_min t s.
Proof.
  unfold team_min.
  destruct (team_lt t s) eqn:Hts, (team_lt s t) eqn:Hst; try done.
  - apply team_lt_asym in Hts. congruence.
  - by apply team_lt_total.
Qed.

Lemma team_max_comm (s t : Team) : team_max s t = team_max t s.
Proof.
  unfold team_max. rewrite !team_gt_lt.
  destruct (team_lt t s) eqn:Hts, (team_lt s t) eqn:Hst; try done.
  - apply team_lt_asym in Hts. congruence.
  - by apply team_lt_total.
Qed.

Lemma normalize_match_comm (t1 t2 : Team) :
  normalize_match t1 t2 = normalize_match t2 t1.
Proof.
  unfold normalize_match; simpl.
  by rewrite team_min_comm, team_max_comm.
Qed.

(** The two teams of a canonical match are the two normalised teams, in one
    order or the other. *)
Lemma normalize_match_teams (t1 t2 : Team) :
  let m := normalize_match t1 t2 in
  (a m = normalize_team t1 ∧ b m = normalize_team t2) ∨
  (a m = normalize_team t2 ∧ b m = normalize_team t1).
Proof.
  unfold normalize_match, team_min, team_max; simpl. rewrite team_gt_lt.
  destruct (team_lt (normalize_team t2) (normalize_team t1)) eqn:H21,
           (team_lt (normalize_team t1) (normalize_team t2)) eqn:H12; auto.
  - apply team_lt_asym in H21. congruence.
  - left. split; [done|]. symmetry. by apply team_lt_total.
Qed.

Lemma normalize_team_cases (x y : Player) :
  normalize_team (x, y) = (x, y) ∨ normalize_team (x, y) = (y, x).
Proof. unfold normalize_team; simpl. destruct (str_lt y x); auto. Qed.

(** C8. For all teams, [normalize_match] gives the same canonical Match for
    the two orders of the teams and for the two orders of the members within
    either team: the eight orderings of two unordered teams coincide. *)
Theorem normalize_match_eight_orderings (x y z w : Player) :
  let m := normalize_match (x, y) (z, w) in
  normalize_match (z, w) (x, y) = m ∧
  normalize_match (y, x) (z, w) = m ∧
  normalize_match (x, y) (w, z) = m ∧
  normalize_match (y, x) (w, z) = m ∧
  normalize_match (w, z) (x, y) = m ∧
  normalize_match (z, w) (y, x) = m ∧
  normalize_match (w, z) (y, x) = m.
Proof.
  assert (Hl : ∀ p q t, normalize_match (q, p) t = normalize_match (p, q) t).
  { intros p q t. unfold normalize_match. by rewrite (normalize_team_swap p q). }
  assert (Hr : ∀ p q t, normalize_match t (q, p) = normalize_match t (p, q)).
  { intros p q t. unfold normalize_match. by rewrite (normalize_team_swap p q). }
  cbv zeta. split; [apply normalize_match_comm|].
  split; [apply Hl|]. split; [apply Hr|].
  split; [by rewrite (Hl x y), (Hr z w)|].
  split; [by rewrite (normalize_match_comm (w, z)), (Hr z w)|].
  split; [by rewrite (normalize_match_comm (z, w)), (Hl x y)|].
  by rewrite (normalize_match_comm (w, z)), (Hl x y), (Hr z w).
Qed.

(** C7, as the code has it. [normalize_match] has no disjointness check and
    never raises: for any two teams it returns the Match made of the two
    normalised teams, the smaller one first, and a participant shared by
    the two input teams is then shared by the two teams of the result. *)
Theorem normalize_match_total (t1 t2 : Team) :
  ∃ m, normalize_match_call t1 t2 = Ok m ∧
       ((a m = normalize_team t1 ∧ b m = normalize_team t2) ∨
        (a m = normalize_team t2 ∧ b m = normalize_team t1)) ∧
       team_lt (b m) (a m) = false ∧
       (¬ teams_disjoint t1 t2 → ¬ teams_disjoint (a m) (b m)).
Proof.
  exists (normalize_match t1 t2). split; [reflexivity|].
  pose proof (normalize_match_teams t1 t2) as Hteams. cbv zeta in Hteams.
  split; [exact Hteams|]. split.
  - unfold normalize_match, team_min, team_max; simpl. rewrite team_gt_lt.
    destruct (team_lt (normalize_team t2) (normalize_team t1)) eqn:H21.
    + rewrite (team_lt_asym _ _ H21). by apply team_lt_asym.
    + destruct (team_lt (normalize_team t1) (normalize_team t2)) eqn:H12;
        [done | apply team_lt_irrefl].
  - intros Hnd Hd. apply Hnd. clear Hnd.
    destruct t1 as [x y], t2 as [z w].
    destruct Hteams as [[Ha Hb]|[Ha Hb]]; rewrite Ha, Hb in Hd;
      destruct (normalize_team_cases x y) as [Ht1|Ht1],
               (normalize_team_cases z w) as [Ht2|Ht2];
      rewrite Ht1, Ht2 in Hd;
      unfold teams_disjoint in *; simpl in *; naive_solver.
Qed.

(** C7, counterexample: two teams that share participant A are turned into
    a Match; nothing is raised. *)
Lemma normalize_match_not_disjoint_returns :
  ¬ teams_disjoint ("A", "B") ("A", "C") ∧
  normalize_match_call ("A", "B") ("A", "C")
    = Ok (mkMatch ("A", "B") ("A", "C")) ∧
  ∀ e, normalize_match_call ("A", "B") ("A", "C") ≠ Raise e.
Proof.
  split; [|split].
  - unfold teams_disjoint; simpl. naive_solver.
  - reflexivity.
  - intros e. discriminate.
Qed.

(** ** Match-count selector *)

Lemma small_range (n : Z) :
  4 ≤ n ≤ 8 → n = 4 ∨ n = 5 ∨ n = 6 ∨ n = 7 ∨ n = 8.
Proof. lia. Qed.

(** C1. Within [4,8], [perfect_possible] holds exactly for 4, 5 and 8 and
    fails exactly for 6 and 7; where it holds, [choose_match_count] returns
    M = N(N-1)/4 (an exact quotient) with [perfect_mode = true]. *)
Theorem perfect_possible_range (n : Z) :
  4 ≤ n ≤ 8 →
  (perfect_possible n = true ↔ n = 4 ∨ n = 5 ∨ n = 8) ∧
  (perfect_possible n = false ↔ n = 6 ∨ n = 7) ∧
  (perfect_possible n = true →
   choose_match_count n = ((n * (n - 1)) `div` 4, true) ∧
   4 * (choose_match_count n).1 = n * (n - 1)).
Proof.
  intros Hn.
  destruct (small_range n Hn) as [-> | [-> | [-> | [-> | ->]]]];
    vm_compute; (repeat split; intros; try discriminate; try lia; auto).
Qed.

Lemma perfect_possible_range_witness :
  choose_match_count 5 = (5, true) ∧ perfect_possible 5 = true.
Proof.
  assert (H5 : 4 ≤ 5 ≤ 8) by lia.
  destruct (perfect_possible_range 5 H5) as (Hp & _ & Hc).
  assert (Hpp : perfect_possible 5 = true) by (apply Hp; auto).
  split; [exact (proj1 (Hc Hpp)) | exact Hpp].
Defined.

(** C2. Within [4,8] the chosen match count M makes 4M divisible by N, in
    the perfect branch and in the other branch alike. *)
Theorem choose_match_count_equal_play (n : Z) :
  4 ≤ n ≤ 8 →
  (4 * (choose_match_count n).1) `mod` n = 0 ∧
  (∀ M, choose_match_count n = (M, true) → (4 * M) `mod` n = 0) ∧
  (∀ M, choose_match_count n = (M, false) → (4 * M) `mod` n = 0).
Proof.
  intros Hn.
  destruct (small_range n Hn) as [-> | [-> | [-> | [-> | ->]]]];
    (split; [reflexivity|]); split; intros M HM; vm_compute in HM;
    inversion HM; reflexivity.
Qed.

Lemma choose_match_count_equal_play_witness :
  (4 * (choose_match_count 7).1) `mod` 7 = 0.
Proof.
  assert (H7 : 4 ≤ 7 ≤ 8) by lia.
  exact (proj1 (choose_match_count_equal_play 7 H7)).
Defined.

(** C3. Within [4,8], when no perfect schedule exists, [choose_match_count]
    returns [(M, false)] with M the smallest multiple of
    [base = N / gcd(N,4)] that is at least
    [min_for_teammates = ceil(C(N,2) / 2)]; for six participants this is
    [(9, false)]. *)
Theorem choose_match_count_imperfect (n : Z) :
  4 ≤ n ≤ 8 → perfect_possible n = false →
  ∃ M, choose_match_count n = (M, false) ∧
       base n = n `div` Z.gcd n 4 ∧
       min_for_teammates n = min_for_teammates_spec (Z.to_nat n) ∧
       smallest_multiple_ge (base n) (min_for_teammates n) M ∧
       choose_match_count 6 = (9, false).
Proof.
  intros Hn Hp.
  destruct (small_range n Hn) as [-> | [-> | [-> | [-> | ->]]]];
    try (vm_compute in Hp; discriminate).
  - exists 9. repeat split; try reflexivity.
    + exists 3. reflexivity.
    + vm_compute. discriminate.
    + intros k [q ->] Hk. change (base 6) with 3 in *.
      change (min_for_teammates 6) with 8 in Hk. lia.
  - exists 14. repeat split; try reflexivity.
    + exists 2. reflexivity.
    + vm_compute. discriminate.
    + intros k [q ->] Hk. change (base 7) with 7 in *.
      change (min_for_teammates 7) with 11 in Hk. lia.
Qed.

Lemma choose_match_count_imperfect_witness :
  ∃ M, choose_match_count 7 = (M, false) ∧
       smallest_multiple_ge (base 7) (min_for_teammates 7) M.
Proof.
  assert (H7 : 4 ≤ 7 ≤ 8) by lia.
  assert (Hp : perfect_possible 7 = false) by reflexivity.
  destruct (choose_match_count_imperfect 7 H7 Hp) as (M & HM & _ & _ & Hs & _).
  exists M. split; [exact HM | exact Hs].
Defined.

(** ** Combinations *)

Section combinations.
Context {A : Type}.
Implicit Types (l c : list A) (r : nat).

Lemma combinations_0 l : combinations l 0 = [[]].
Proof. by destruct l. Qed.

Lemma combinations_length l r c : c ∈ combinations l r → length c = r.
Proof.
  revert r c. induction l as [|x l IH]; intros [|r] c; simpl.
  - by intros ->%list_elem_of_singleton.
  - by intros ?%elem_of_nil.
  - by intros ->%list_elem_of_singleton.
  - rewrite elem_of_app, list_elem_of_fmap.
    intros [(c0 & -> & Hc0)|Hc]; simpl; [f_equal|]; eauto.
Qed.

Lemma combinations_count l r :
  length (combinations l r) = binomial (length l) r.
Proof.
  revert r. induction l as [|x l IH]; intros [|r]; simpl; try done.
  by rewrite length_app, length_map, !IH.
Qed.

Lemma combinations_sublist l r c : c ∈ combinations l r → c `sublist_of` l.
Proof.
  revert r c. induction l as [|x l IH]; intros [|r] c; simpl.
  - by intros ->%list_elem_of_singleton.
  - by intros ?%elem_of_nil.
  - intros ->%list_elem_of_singleton. apply sublist_nil_l.
  - rewrite elem_of_app, list_elem_of_fmap.
    intros [(c0 & -> & Hc0)|Hc].
    + apply sublist_skip. eauto.
    + apply sublist_cons. eauto.
Qed.

(** A subsequence of a duplicate-free list is determined by its elements. *)
Lemma sublist_same_elements l c c' :
  NoDup l → c `sublist_of` l → c' `sublist_of` l →
  (∀ x, x ∈ c ↔ x ∈ c') → c = c'.
Proof.
  intros Hnd. revert c c'.
  induction Hnd as [|x l Hx Hnd IH]; intros c c' Hc Hc' Hsame.
  - apply sublist_nil_r in Hc, Hc'. congruence.
  - apply sublist_cons_r in Hc, Hc'.
    destruct Hc as [Hc|(c0 & -> & Hc)], Hc' as [Hc'|(c0' & -> & Hc')].
    + by apply IH.
    + exfalso. apply Hx. eapply elem_of_sublist; [|exact Hc].
      apply Hsame. left.
    + exfalso. apply Hx. eapply elem_of_sublist; [|exact Hc'].
      apply Hsame. left.
    + f_equal. apply IH; [done..|]. intros y.
      assert (y ∈ c0 → y ≠ x) by (intros ? ->; eauto using elem_of_sublist).
      assert (y ∈ c0' → y ≠ x) by (intros ? ->; eauto using elem_of_sublist).
      specialize (Hsame y). rewrite !elem_of_cons in Hsame. naive_solver.
Qed.

Lemma combinations_NoDup l r : NoDup l → NoDup (combinations l r).
Proof.
  intros Hnd. revert r.
  induction Hnd as [|x l Hx Hnd IH]; intros [|r]; simpl;
    try (apply NoDup_singleton || apply NoDup_nil_2).
  apply NoDup_app. split; [|split; [|apply IH]].
  - apply NoDup_fmap_2; [|apply IH]. by intros ?? [=].
  - intros c (c0 & -> & _)%list_elem_of_fmap Hc.
    apply Hx. eapply elem_of_sublist; [left|].
    eapply combinations_sublist, Hc.
Qed.

Lemma combinations_nonempty l r : (r ≤ length l)%nat → combinations l r ≠ [].
Proof.
  revert r. induction l as [|x l IH]; intros [|r] Hr; simpl in *; try done.
  - lia.
  - intros [Hm _]%app_eq_nil. apply fmap_nil_inv in Hm.
    revert Hm. apply IH. lia.
Qed.
End combinations.

(** ** Shape of canonical matches *)

Lemma normalize_match_ordered (t1 t2 : Team) :
  team_lt (b (normalize_match t1 t2)) (a (normalize_match t1 t2)) = false.
Proof.
  unfold normalize_match, team_min, team_max; simpl. rewrite team_gt_lt.
  destruct (team_lt (normalize_team t2) (normalize_team t1)) eqn:H21.
  + rewrite (team_lt_asym _ _ H21). by apply team_lt_asym.
  + destruct (team_lt (normalize_team t1) (normalize_team t2)) eqn:H12;
      [done | apply team_lt_irrefl].
Qed.

Lemma normalize_team_idemp (t : Team) :
  normalize_team (normalize_team t) = normalize_team t.
Proof.
  destruct t as [x y]. unfold normalize_team; simpl.
  destruct (str_lt y x) eqn:Hyx; simpl.
  - by rewrite (str_lt_asym _ _ Hyx).
  - by rewrite Hyx.
Qed.

Lemma canonical_normalize_match (t1 t2 : Team) :
  canonical (normalize_match t1 t2).
Proof.
  unfold canonical.
  pose proof (normalize_match_ordered t1 t2) as Hord.
  pose proof (normalize_match_teams t1 t2) as Hteams. cbv zeta in Hteams.
  destruct (normalize_match t1 t2) as [ta tb] eqn:Hm; simpl in *.
  assert (normalize_team ta = ta ∧ normalize_team tb = tb) as [Ha Hb].
  { destruct Hteams as [[-> ->]|[-> ->]]; by rewrite !normalize_team_idemp. }
  unfold normalize_match. rewrite Ha, Hb. unfold team_min, team_max.
  rewrite team_gt_lt, Hord. f_equal.
  destruct (team_lt ta tb) eqn:Hab; [done|]. by apply team_lt_total.
Qed.

Lemma mates_normalize_match (x y z w p q : Player) :
  mates (normalize_match (x, y) (z, w)) p q ↔
  (p = x ∧ q = y) ∨ (p = y ∧ q = x) ∨ (p = z ∧ q = w) ∨ (p = w ∧ q = z).
Proof.
  unfold mates.
  pose proof (normalize_match_teams (x, y) (z, w)) as Hteams.
  cbv zeta in Hteams.
  destruct Hteams as [[-> ->]|[-> ->]];
    destruct (normalize_team_cases x y) as [-> | ->],
             (normalize_team_cases z w) as [-> | ->];
    split; intros H; repeat destruct H as [H|H];
    first [ injection H as -> -> | destruct H as [-> ->] ]; auto 10.
Qed.

Lemma players_of_normalize_match (x y z w : Player) :
  players_of (normalize_match (x, y) (z, w)) ≡ₚ [x; y; z; w].
Proof.
  pose proof (normalize_match_teams (x, y) (z, w)) as Hteams.
  cbv zeta in Hteams. unfold players_of.
  assert (Hswap : ∀ (p q r s : Player), [r; s; p; q] ≡ₚ [p; q; r; s]).
  { intros p q r s. apply (Permutation_app_comm [r; s] [p; q]). }
  assert (H2 : ∀ (p q : Player) l, q :: p :: l ≡ₚ p :: q :: l).
  { intros. apply perm_swap. }
  assert (H34 : ∀ (p q r s : Player), [p; q; s; r] ≡ₚ [p; q; r; s]).
  { intros. do 2 apply Permutation_skip. apply perm_swap. }
  destruct Hteams as [[-> ->]|[-> ->]]; [|etrans; [apply Hswap|]];
    destruct (normalize_team_cases x y) as [-> | ->],
             (normalize_team_cases z w) as [-> | ->]; simpl;
    first [ reflexivity | apply H2 | apply H34
          | (etrans; [apply H2|apply H34]) ].
Qed.

Global Instance match_key_inj : Inj (=) (=) match_key.
Proof. intros [??] [??] [=]; by subst. Qed.

(** ** The three splits of a quartet *)

Lemma partitions_quartet (p0 p1 p2 p3 : Player) :
  NoDup [p0; p1; p2; p3] →
  all_team_partitions_of_four [p0; p1; p2; p3]
    = Ok [ normalize_match (p0, p1) (p2, p3);
           normalize_match (p0, p2) (p1, p3);
           normalize_match (p0, p3) (p1, p2) ] ∧
  NoDup [ normalize_match (p0, p1) (p2, p3);
          normalize_match (p0, p2) (p1, p3);
          normalize_match (p0, p3) (p1, p2) ].
Proof.
  intros Hnd.
  assert (p0 ≠ p1 ∧ p0 ≠ p2 ∧ p0 ≠ p3 ∧ p1 ≠ p2 ∧ p1 ≠ p3 ∧ p2 ≠ p3)
    as (H01 & H02 & H03 & H12 & H13 & H23).
  { rewrite !NoDup_cons, !elem_of_cons in Hnd. naive_solver. }
  set (m1 := normalize_match (p0, p1) (p2, p3)).
  set (m2 := normalize_match (p0, p2) (p1, p3)).
  set (m3 := normalize_match (p0, p3) (p1, p2)).
  assert (Hm1 : mates m1 p0 p1) by (apply mates_normalize_match; auto).
  assert (Hm2 : mates m2 p0 p2) by (apply mates_normalize_match; auto).
  assert (H12' : m2 ≠ m1).
  { intros E. rewrite <- E in Hm1.
    apply mates_normalize_match in Hm1. naive_solver. }
  assert (H13' : m3 ≠ m1).
  { intros E. rewrite <- E in Hm1.
    apply mates_normalize_match in Hm1. naive_solver. }
  assert (H23' : m3 ≠ m2).
  { intros E. rewrite <- E in Hm2.
    apply mates_normalize_match in Hm2. naive_solver. }
  split.
  - unfold all_team_partitions_of_four, partitions_loop.
    fold m1 m2 m3. cbv zeta.
    rewrite decide_False by set_solver.
    rewrite decide_False by (intros Hin; apply H12'; set_solver).
    rewrite decide_False by (intros Hin; set_solver).
    reflexivity.
  - rewrite !NoDup_cons, !elem_of_cons. rewrite !elem_of_nil.
    repeat split; try apply NoDup_nil_2; naive_solver.
Qed.

Lemma all_team_partitions_of_four_ok (c : list Player) :
  (4 ≤ length c)%nat → all_team_partitions_of_four c = Ok (partitions c).
Proof.
  destruct c as [|p0 [|p1 [|p2 [|p3 c]]]]; simpl; try lia. done.
Qed.

Lemma partitions_length_le (c : list Player) : (length (partitions c) ≤ 3)%nat.
Proof.
  destruct c as [|p0 [|p1 [|p2 [|p3 c]]]]; simpl; try lia.
  unfold partitions, all_team_partitions_of_four, partitions_loop.
  cbv zeta. repeat case_decide; simpl; lia.
Qed.

Lemma partitions_nonempty (c : list Player) :
  (4 ≤ length c)%nat → partitions c ≠ [].
Proof.
  destruct c as [|p0 [|p1 [|p2 [|p3 c]]]]; simpl; try lia. intros _.
  unfold partitions, all_team_partitions_of_four, partitions_loop.
  cbv zeta. rewrite decide_False by set_solver.
  repeat case_decide; simpl; done.
Qed.

(** Every split of a duplicate-free quartet is canonical and is played by
    exactly the four members of the quartet. *)
Lemma partitions_elem (c : list Player) (m : Match) :
  NoDup c → length c = 4%nat → m ∈ partitions c →
  canonical m ∧ players_of m ≡ₚ c.
Proof.
  intros Hnd Hlen.
  destruct c as [|p0 [|p1 [|p2 [|p3 [|]]]]]; simpl in Hlen; try lia.
  unfold partitions.
  destruct (partitions_quartet p0 p1 p2 p3 Hnd) as [-> _].
  rewrite !elem_of_cons, elem_of_nil.
  intros [-> | [-> | [-> | []]]]; (split; [apply canonical_normalize_match|]);
    rewrite players_of_normalize_match.
  - done.
  - apply Permutation_skip, perm_swap.
  - etrans; [apply Permutation_skip, perm_swap|].
    apply Permutation_skip, Permutation_skip, perm_swap.
Qed.

Lemma partitions_NoDup (c : list Player) :
  NoDup c → length c = 4%nat →
  NoDup (partitions c) ∧ length (partitions c) = 3%nat.
Proof.
  intros Hnd Hlen.
  destruct c as [|p0 [|p1 [|p2 [|p3 [|]]]]]; simpl in Hlen; try lia.
  unfold partitions.
  by destruct (partitions_quartet p0 p1 p2 p3 Hnd) as [-> ?].
Qed.

(** ** The candidate list *)

Lemma extend_candidates_ok (combos : list (list Player)) (acc : list Match) :
  (∀ c, c ∈ combos → length c = 4%nat) →
  extend_candidates combos acc = Ok (acc ++ (combos ≫= partitions)).
Proof.
  revert acc. induction combos as [|c combos IH]; intros acc Hlen; simpl.
  - by rewrite app_nil_r.
  - rewrite all_team_partitions_of_four_ok
      by (rewrite (Hlen c); [lia | left]).
    rewrite IH by (intros; apply Hlen; by right).
    by rewrite <- app_assoc.
Qed.

Lemma dict_setitem_length {K V : Type} `{EqDecision K}
    (d : list (K * V)) (k : K) (v : V) :
  (length (dict_setitem d k v) ≤ S (length d))%nat.
Proof.
  induction d as [|[k' v'] d IH]; simpl; [lia|].
  case_decide; simpl; lia.
Qed.

Lemma dict_setitem_fresh {K V : Type} `{EqDecision K}
    (d : list (K * V)) (k : K) (v : V) :
  k ∉ d.*1 → dict_setitem d k v = d ++ [(k, v)].
Proof.
  induction d as [|[k' v'] d IH]; simpl; [done|].
  rewrite not_elem_of_cons. intros [Hne Hk].
  rewrite decide_False by done. by rewrite IH.
Qed.

Lemma uniq_of_length_aux (ms : list Match) (d : list (Team * Team * Match)) :
  (length (foldl (λ uniq m, dict_setitem uniq (match_key m) m) d ms)
     ≤ length d + length ms)%nat.
Proof.
  revert d. induction ms as [|m ms IH]; intros d; simpl; [lia|].
  etrans; [apply IH|]. pose proof (dict_setitem_length d (match_key m) m). lia.
Qed.

Lemma uniq_of_length (ms : list Match) :
  (length (dict_values (uniq_of ms)) ≤ length ms)%nat.
Proof.
  unfold dict_values, uniq_of. rewrite length_fmap.
  apply (uniq_of_length_aux ms []).
Qed.

Lemma uniq_of_NoDup_aux (ms acc : list Match) :
  NoDup (acc ++ ms) →
  foldl (λ uniq m, dict_setitem uniq (match_key m) m)
        ((λ m, (match_key m, m)) <$> acc) ms
  = (λ m, (match_key m, m)) <$> (acc ++ ms).
Proof.
  revert acc. induction ms as [|m ms IH]; intros acc Hnd; simpl.
  - by rewrite app_nil_r.
  - rewrite dict_setitem_fresh.
    + replace (((λ m0, (match_key m0, m0)) <$> acc) ++ [(match_key m, m)])
        with ((λ m0, (match_key m0, m0)) <$> (acc ++ [m]))
        by (by rewrite fmap_app).
      rewrite IH; rewrite <- app_assoc; done.
    + rewrite <- list_fmap_compose. intros (m' & Hk & Hm')%list_elem_of_fmap.
      simpl in Hk. apply (inj match_key) in Hk. subst m'.
      apply NoDup_app in Hnd as (_ & Hdisj & _). apply (Hdisj m Hm'). left.
Qed.

Lemma uniq_of_NoDup (ms : list Match) :
  NoDup ms → dict_values (uniq_of ms) = ms.
Proof.
  intros Hnd. unfold dict_values, uniq_of.
  pose proof (uniq_of_NoDup_aux ms [] Hnd) as E. simpl in E. rewrite E.
  rewrite <- list_fmap_compose. apply list_fmap_id.
Qed.

Lemma uniq_of_nonempty (ms : list Match) :
  ms ≠ [] → dict_values (uniq_of ms) ≠ [].
Proof.
  assert (Hd : ∀ (l : list Match) (d0 : list (Team * Team * Match)),
    d0 ≠ [] →
    foldl (λ uniq m0, dict_setitem uniq (match_key m0) m0) d0 l ≠ []).
  { induction l as [|m' l IH]; intros d0 Hd0; simpl; [done|].
    apply IH. destruct d0 as [|[k v] d0]; simpl; [done|]. by case_decide. }
  destruct ms as [|m ms]; [done|]. intros _. unfold dict_values, uniq_of.
  simpl. intros Hnil%fmap_nil_inv. revert Hnil. by apply Hd.
Qed.

Lemma generate_candidate_matches_bind (players : list Player) :
  generate_candidate_matches players
  = Ok (dict_values (uniq_of (combinations players 4 ≫= partitions))).
Proof.
  unfold generate_candidate_matches.
  rewrite extend_candidates_ok; [done|].
  intros c Hc. by apply combinations_length in Hc.
Qed.

Lemma candidates_NoDup (players : list Player) :
  NoDup players → NoDup (combinations players 4 ≫= partitions).
Proof.
  intros Hnd. apply NoDup_bind; [| |by apply combinations_NoDup].
  - intros c1 c2 m Hc1 Hc2 Hm1 Hm2.
    pose proof (combinations_sublist _ _ _ Hc1) as Hs1.
    pose proof (combinations_sublist _ _ _ Hc2) as Hs2.
    apply partitions_elem in Hm1 as [_ Hp1];
      [|by eapply sublist_NoDup|by eapply combinations_length].
    apply partitions_elem in Hm2 as [_ Hp2];
      [|by eapply sublist_NoDup|by eapply combinations_length].
    apply (sublist_same_elements players); [done..|].
    intros x. by rewrite <- Hp1, <- Hp2.
  - intros c Hc. apply partitions_NoDup.
    + eapply sublist_NoDup; [exact Hnd | by eapply combinations_sublist].
    + by eapply combinations_length.
Qed.

Lemma candidates_length (players : list Player) :
  NoDup players →
  length (combinations players 4 ≫= partitions)
  = (3 * binomial (length players) 4)%nat.
Proof.
  intros Hnd. rewrite <- combinations_count.
  assert (Hall : Forall (λ c, NoDup c ∧ length c = 4%nat)
                        (combinations players 4)).
  { apply Forall_forall. intros c Hc. split.
    - eapply sublist_NoDup; [exact Hnd | by eapply combinations_sublist].
    - by eapply combinations_length. }
  induction Hall as [|c cs [Hc1 Hc2] _ IH]; [done|].
  rewrite bind_cons, length_app, IH. simpl.
  destruct (partitions_NoDup c Hc1 Hc2) as [_ ->]. lia.
Qed.

Lemma candidates_length_le (players : list Player) :
  (length (combinations players 4 ≫= partitions)
   ≤ 3 * binomial (length players) 4)%nat.
Proof.
  rewrite <- combinations_count.
  induction (combinations players 4) as [|c cs IH]; [done|].
  rewrite bind_cons, length_app. simpl.
  pose proof (partitions_length_le c). lia.
Qed.

(** C5. For a roster of pairwise-distinct participants (of any size, so in
    particular with 4 to 8 of them), [generate_candidate_matches] returns
    exactly [3 * C(N,4)] matches, no two of them equal, each canonical and
    played by four pairwise-distinct participants of the roster, hence with
    two disjoint teams of two. *)
Theorem generate_candidate_matches_count (players : list Player) :
  NoDup players →
  ∃ cands, generate_candidate_matches players = Ok cands ∧
    length cands = (3 * binomial (length players) 4)%nat ∧
    NoDup cands ∧
    ∀ m, m ∈ cands →
      canonical m ∧ NoDup (players_of m) ∧ players_of m ⊆ players ∧
      teams_disjoint (a m) (b m).
Proof.
  intros Hnd. eexists. split; [apply generate_candidate_matches_bind|].
  rewrite uniq_of_NoDup by by apply candidates_NoDup.
  split; [by apply candidates_length|]. split; [by apply candidates_NoDup|].
  intros m (c & Hm & Hc)%list_elem_of_bind.
  pose proof (combinations_sublist _ _ _ Hc) as Hsub.
  assert (Hcnd : NoDup c) by by eapply sublist_NoDup.
  apply partitions_elem in Hm as [Hcan Hperm];
    [|done|by eapply combinations_length].
  assert (Hmnd : NoDup (players_of m)) by by rewrite Hperm.
  split; [done|]. split; [done|]. split.
  - intros x Hx. rewrite Hperm in Hx. by eapply elem_of_sublist.
  - unfold players_of in Hmnd.
    rewrite !NoDup_cons, !elem_of_cons in Hmnd.
    unfold teams_disjoint. naive_solver.
Qed.

Lemma generate_candidate_matches_count_witness :
  ∃ cands, generate_candidate_matches ["A"; "B"; "C"; "D"; "E"] = Ok cands ∧
    length cands = 15%nat ∧ NoDup cands.
Proof.
  assert (Hnd : NoDup ["A"; "B"; "C"; "D"; "E"]).
  { apply (bool_decide_unpack _). vm_compute. reflexivity. }
  destruct (generate_candidate_matches_count _ Hnd)
    as (cands & Hc & Hlen & Hcnd & _).
  exists cands. split; [exact Hc|]. split; [exact Hlen | exact Hcnd].
Defined.

(** ** Sums *)


Lemma Zsum_Permutation (l k : list Z) : l ≡ₚ k → Zsum l = Zsum k.
Proof. induction 1; simpl; lia. Qed.

Lemma Qsum_Permutation (l k : list Q) : l ≡ₚ k → (Qsum l == Qsum k)%Q.
Proof.
  induction 1 as [|x l k _ IH|x y l|l k j _ IH1 _ IH2]; simpl.
  - reflexivity.
  - by rewrite IH.
  - ring.
  - by rewrite IH1.
Qed.

Lemma Zsum_zero {A : Type} (f : A → Z) (l : list A) :
  (∀ x, x ∈ l → f x = 0) → Zsum (map f l) = 0.
Proof.
  induction l as [|x l IH]; intros Hf; simpl; [done|].
  rewrite Hf by left. rewrite IH; [done|]. intros y Hy. apply Hf. by right.
Qed.

(** ** Pair keys *)

Lemma pair_key_cases (x y : Player) :
  pair_key x y = (x, y) ∨ pair_key x y = (y, x).
Proof. unfold pair_key. destruct (str_lt x y); auto. Qed.

Lemma pair_key_comm (x y : Player) : pair_key x y = pair_key y x.
Proof.
  unfold pair_key.
  destruct (str_lt x y) eqn:Hxy, (str_lt y x) eqn:Hyx; try done.
  - apply str_lt_asym in Hxy. congruence.
  - by rewrite (str_lt_total _ _ Hxy Hyx).
Qed.

(** Two pairs have the same key exactly when they are the same unordered
    pair. *)
Lemma pair_key_eq_iff (x y p q : Player) :
  pair_key x y = pair_key p q ↔ Spec.is_pair (p, q) (x, y).
Proof.
  unfold Spec.is_pair; simpl. split.
  - intros E.
    destruct (pair_key_cases x y) as [Hx|Hx], (pair_key_cases p q) as [Hp|Hp];
      rewrite Hx, Hp in E; injection E as -> ->; auto.
  - intros [[= -> ->]|[= -> ->]]; [done | apply pair_key_comm].
Qed.

(** ** Counting dictionaries *)

Section counting.
Context `{Countable K}.
Implicit Types (d : gmap K Z) (L : list K) (k : K).

Lemma occ_cons k x L :
  occ k (x :: L) = (if decide (k = x) then 1 else 0) + occ k L.
Proof.
  unfold occ. rewrite filter_cons. case_decide; simpl; lia.
Qed.

Lemma occ_app k L1 L2 : occ k (L1 ++ L2) = occ k L1 + occ k L2.
Proof. unfold occ. rewrite filter_app, length_app. lia. Qed.

Lemma occ_pos k L : k ∈ L ↔ 0 < occ k L.
Proof.
  induction L as [|x L IH].
  - unfold occ. simpl. rewrite elem_of_nil. lia.
  - rewrite occ_cons, elem_of_cons, IH.
    assert (0 ≤ occ k L) by (unfold occ; lia).
    case_decide; split; intros; try lia; auto. naive_solver.
Qed.

Lemma incr_lookup d k k' :
  incr d k !! k' =
    if decide (k = k') then Some (default 0 (d !! k) + 1) else d !! k'.
Proof. unfold incr. by rewrite lookup_insert. Qed.

Lemma foldl_incr_default L d k :
  default 0 (foldl incr d L !! k) = default 0 (d !! k) + occ k L.
Proof.
  revert d. induction L as [|x L IH]; intros d; simpl.
  - unfold occ. simpl. lia.
  - rewrite IH, incr_lookup, occ_cons.
    destruct (decide (x = k)) as [->|Hne].
    + rewrite decide_True by done. simpl. lia.
    + rewrite decide_False by done. lia.
Qed.

Lemma foldl_incr_is_Some L d k :
  is_Some (foldl incr d L !! k) ↔ is_Some (d !! k) ∨ k ∈ L.
Proof.
  revert d. induction L as [|x L IH]; intros d; simpl.
  - rewrite elem_of_nil. naive_solver.
  - rewrite IH, incr_lookup, elem_of_cons.
    case_decide; subst; split; intros; naive_solver.
Qed.

Lemma count_map_lookup L k v :
  foldl incr (∅ : gmap K Z) L !! k = Some v ↔ k ∈ L ∧ v = occ k L.
Proof.
  pose proof (foldl_incr_default L ∅ k) as Hd.
  pose proof (foldl_incr_is_Some L ∅ k) as Hs.
  rewrite lookup_empty in Hd, Hs. simpl in Hd.
  split.
  - intros E. rewrite E in Hd, Hs. simpl in Hd. split; [|lia].
    destruct Hs as [[Hs|Hs] _]; [by eexists| |done].
    by apply is_Some_None in Hs.
  - intros [Hk ->].
    destruct Hs as [_ [v Hv]]; [by right|].
    rewrite Hv in Hd. simpl in Hd. rewrite Hv. f_equal. lia.
Qed.

(** The items of a counting dictionary: every distinct key with its number
    of occurrences. *)
Lemma count_map_items L :
  map_to_list (foldl incr (∅ : gmap K Z) L)
  ≡ₚ (λ k, (k, occ k L)) <$> remove_dups L.
Proof.
  apply NoDup_Permutation.
  - apply NoDup_map_to_list.
  - apply NoDup_fmap_2_strong; [|apply NoDup_remove_dups].
    by intros ???? [=].
  - intros [k v]. rewrite elem_of_map_to_list, count_map_lookup.
    rewrite list_elem_of_fmap. split.
    + intros [Hk ->]. exists k. by rewrite elem_of_remove_dups.
    + intros (k' & [= -> ->] & Hk). by rewrite elem_of_remove_dups in Hk.
Qed.

Lemma count_map_values (f : Z → Z) L :
  Zsum (map f (values (foldl incr (∅ : gmap K Z) L)))
  = Zsum (map (λ k, f (occ k L)) (remove_dups L)).
Proof.
  unfold values.
  rewrite (Zsum_Permutation _ (map f (((λ k, (k, occ k L)) <$> remove_dups L).*2))).
  - f_equal. rewrite <- !list_fmap_compose. done.
  - apply fmap_Permutation, fmap_Permutation, count_map_items.
Qed.
End counting.

(** ** The loop of [score_schedule]: the two pair counters *)

Lemma player_loop_counts (S : gset Player) (ps : list Player) (st : score_state) :
  teammate_counts (foldl (player_step S) st ps) = teammate_counts st ∧
  opp_counts (foldl (player_step S) st ps) = opp_counts st.
Proof.
  revert st. induction ps as [|p ps IH]; intros st; simpl; [done|].
  destruct (IH (player_step S st p)) as [-> ->].
  unfold player_step. by case_decide.
Qed.

Lemma match_loop_counts (ps : list Player) (sch : list Match) (st : score_state) :
  teammate_counts (foldl (match_step ps) st sch)
    = foldl incr (teammate_counts st) (sch ≫= team_keys) ∧
  opp_counts (foldl (match_step ps) st sch)
    = foldl incr (opp_counts st) (sch ≫= opp_keys).
Proof.
  revert st. induction sch as [|m sch IH]; intros st; [done|].
  rewrite !bind_cons, !foldl_app. cbn [foldl].
  destruct (IH (match_step ps st m)) as [-> ->].
  unfold match_step. cbn [teammate_counts opp_counts].
  destruct (player_loop_counts (list_to_set (players_of m)) ps st) as [-> ->].
  done.
Qed.

Lemma length_filter_ext {A : Type} (P Q : A → Prop)
    `{∀ x, Decision (P x)} `{∀ x, Decision (Q x)} (l : list A) :
  (∀ x, x ∈ l → (P x ↔ Q x)) → length (filter P l) = length (filter Q l).
Proof.
  induction l as [|x l IH]; intros HPQ; [done|].
  rewrite !filter_cons.
  assert (HPx : P x ↔ Q x) by (apply HPQ; left).
  assert (IH' : length (filter P l) = length (filter Q l))
    by (apply IH; intros y Hy; apply HPQ; by right).
  repeat case_decide; simpl; try tauto; lia.
Qed.

Lemma occ_fmap `{EqDecision K} {A : Type} (f : A → K) (k : K) (l : list A) :
  occ k (f <$> l) = Z.of_nat (length (filter (λ x, k = f x) l)).
Proof.
  unfold occ. f_equal.
  induction l as [|x l IH]; [done|].
  rewrite fmap_cons, !filter_cons. case_decide; simpl; by rewrite IH.
Qed.

Lemma Zsum_map_ext {A : Type} (f g : A → Z) (l : list A) :
  (∀ x, x ∈ l → f x = g x) → Zsum (map f l) = Zsum (map g l).
Proof.
  induction l as [|x l IH]; intros Hfg; simpl; [done|].
  rewrite Hfg by left. rewrite IH; [done|]. intros y Hy. apply Hfg. by right.
Qed.

Lemma is_pair_swap (p q : Player) (t : Player * Player) :
  Spec.is_pair (q, p) t ↔ Spec.is_pair (p, q) t.
Proof. unfold Spec.is_pair; simpl. tauto. Qed.

Lemma team_keys_bind (sch : list Match) :
  sch ≫= team_keys
  = (λ t : Player * Player, pair_key t.1 t.2) <$> (sch ≫= λ m, [a m; b m]).
Proof.
  induction sch as [|m sch IH]; [done|].
  rewrite !bind_cons, fmap_app, <- IH. done.
Qed.

Lemma opp_keys_bind (sch : list Match) :
  sch ≫= opp_keys
  = (λ t : Player * Player, pair_key t.1 t.2) <$> (sch ≫= Spec.opponents).
Proof.
  induction sch as [|m sch IH]; [done|].
  rewrite !bind_cons, fmap_app, <- IH. done.
Qed.

(** The teammate counter, read at the key of a pair, is the number of teams
    of the schedule that consist of that pair. *)
Lemma teammate_counts_spec (sch : list Match) (p q : Player) :
  occ (pair_key p q) (sch ≫= team_keys) = Spec.teammate_count sch (p, q).
Proof.
  rewrite team_keys_bind, occ_fmap. unfold Spec.teammate_count. f_equal.
  apply length_filter_ext. intros [x y] _. simpl.
  rewrite <- pair_key_eq_iff. split; congruence.
Qed.

Lemma opp_counts_spec (sch : list Match) (k : Player * Player) :
  k ∈ sch ≫= opp_keys →
  occ k (sch ≫= opp_keys) = Spec.opponent_count sch k.
Proof.
  rewrite opp_keys_bind. intros ([x0 y0] & -> & _)%list_elem_of_fmap.
  rewrite occ_fmap. unfold Spec.opponent_count. f_equal. simpl.
  apply length_filter_ext. intros [x y] _. simpl.
  transitivity (Spec.is_pair (x0, y0) (x, y)).
  - rewrite <- pair_key_eq_iff. split; congruence.
  - destruct (pair_key_cases x0 y0) as [-> | ->]; [done|].
    by rewrite is_pair_swap.
Qed.

Lemma opp_repeats_spec (sch : list Match) :
  Zsum (map (λ c, Z.max 0 (c - 1))
            (values (foldl incr (∅ : gmap (Player * Player) Z)
                           (sch ≫= opp_keys))))
  = Spec.opponent_repeats sch.
Proof.
  rewrite (count_map_values (λ c, Z.max 0 (c - 1))).
  unfold Spec.opponent_repeats, Spec.opponent_pairs.
  rewrite <- opp_keys_bind. apply Zsum_map_ext.
  intros k Hk. rewrite elem_of_remove_dups in Hk. by rewrite opp_counts_spec.
Qed.

(** ** The loop over [all_pairs] *)

Lemma all_pairs_roster (players : list Player) :
  all_pairs players
  = (λ pq : Player * Player, pair_key pq.1 pq.2) <$> Spec.roster_pairs players.
Proof.
  induction players as [|x ps IH]; [done|]. simpl.
  rewrite fmap_app, <- IH. f_equal.
  rewrite <- list_fmap_compose. done.
Qed.

Lemma pair_loop (sch : list Match) (pm : bool) (L : list (Player * Player))
    (mi de re : Z) :
  foldl (pair_step (foldl incr ∅ (sch ≫= team_keys)) pm) (mi, de, re)
        ((λ pq : Player * Player, pair_key pq.1 pq.2) <$> L)
  = (mi + Z.of_nat (length (filter
                      (λ pq, Spec.teammate_count sch pq = 0) L)),
     de + (if pm
           then Zsum (map (λ pq, Z.abs (Spec.teammate_count sch pq - 1)) L)
           else 0),
     re + Zsum (map (λ pq, Z.max 0 (Spec.teammate_count sch pq - 1)) L)).
Proof.
  revert mi de re. induction L as [|[p q] L IH]; intros mi de re.
  - simpl. destruct pm; (apply pair_equal_spec; split; [apply pair_equal_spec; split|]); lia.
  - rewrite fmap_cons. cbn [foldl]. unfold pair_step at 2. cbn [fst snd].
    pose proof (foldl_incr_default (sch ≫= team_keys) ∅ (pair_key p q)) as Hc.
    rewrite lookup_empty, teammate_counts_spec in Hc. simpl in Hc.
    rewrite Hc. rewrite IH. rewrite filter_cons. cbn [map Zsum foldr].
    unfold Zsum.
    destruct pm; repeat case_decide; simpl;
      (apply pair_equal_spec; split; [apply pair_equal_spec; split|]); lia.
Qed.

Lemma pair_loop_spec (sch : list Match) (pm : bool) (players : list Player) :
  foldl (pair_step (foldl incr ∅ (sch ≫= team_keys)) pm) (0, 0, 0)
        (all_pairs players)
  = (Spec.missing sch players,
     if pm then Spec.deviation sch players else 0,
     Spec.repeats sch players).
Proof.
  rewrite all_pairs_roster, pair_loop.
  unfold Spec.missing, Spec.deviation, Spec.repeats.
  destruct pm; (apply pair_equal_spec; split; [apply pair_equal_spec; split|]); lia.
Qed.

(** ** The loop of [score_schedule]: play counts and rest streaks *)

Lemma player_step_plays (S : gset Player) (st : score_state) (p q : Player) :
  plays (player_step S st p) !!! q
  = plays st !!! q + (if decide (q = p ∧ p ∈ S) then 1 else 0).
Proof.
  unfold player_step. destruct (decide (p ∈ S)) as [Hp|Hp]; simpl.
  - destruct (decide (q = p)) as [->|Hne].
    + rewrite lookup_total_insert_eq. rewrite decide_True by done. lia.
    + rewrite lookup_total_insert_ne by done.
      rewrite decide_False by tauto. lia.
  - rewrite decide_False by tauto. lia.
Qed.

Lemma player_step_plays_dom (S : gset Player) (st : score_state) (p q : Player) :
  is_Some (plays (player_step S st p) !! q)
  ↔ is_Some (plays st !! q) ∨ (q = p ∧ p ∈ S).
Proof.
  unfold player_step. destruct (decide (p ∈ S)) as [Hp|Hp]; simpl.
  - rewrite lookup_insert_is_Some. destruct (decide (p = q)); naive_solver.
  - tauto.
Qed.

Lemma player_step_rest (S : gset Player) (st : score_state) (p q : Player) :
  rest_streak (player_step S st p) !!! q
  = if decide (q = p)
    then (if decide (p ∈ S) then 0 else rest_streak st !!! p + 1)
    else rest_streak st !!! q.
Proof.
  unfold player_step. destruct (decide (p ∈ S)) as [Hp|Hp]; simpl;
    (destruct (decide (q = p)) as [->|Hne];
     [by rewrite lookup_total_insert_eq
     |by rewrite lookup_total_insert_ne by done]).
Qed.

Lemma player_step_pen (S : gset Player) (st : score_state) (p : Player) :
  rest_streak_pen (player_step S st p)
  = rest_streak_pen st
    + (if decide (p ∈ S) then 0
       else if decide (2 ≤ rest_streak st !!! p + 1)
            then rest_streak st !!! p else 0).
Proof.
  unfold player_step. destruct (decide (p ∈ S)); simpl; [lia|].
  case_decide; lia.
Qed.

Lemma player_loop (S : gset Player) (ps : list Player) (st : score_state) :
  NoDup ps →
  let st' := foldl (player_step S) st ps in
  (∀ q, plays st' !!! q
        = plays st !!! q + (if decide (q ∈ ps ∧ q ∈ S) then 1 else 0)) ∧
  (∀ q, is_Some (plays st' !! q)
        ↔ is_Some (plays st !! q) ∨ (q ∈ ps ∧ q ∈ S)) ∧
  (∀ q, rest_streak st' !!! q
        = if decide (q ∈ ps)
          then (if decide (q ∈ S) then 0 else rest_streak st !!! q + 1)
          else rest_streak st !!! q) ∧
  rest_streak_pen st'
  = rest_streak_pen st
    + Zsum (map (λ p, if decide (p ∈ S) then 0
                      else if decide (2 ≤ rest_streak st !!! p + 1)
                           then rest_streak st !!! p else 0) ps).
Proof.
  intros Hnd. revert st. induction Hnd as [|p ps Hp Hnd IH]; intros st.
  - simpl. split_and!; intros; rewrite ?decide_False
      by (rewrite elem_of_nil; tauto); try lia; try done.
    rewrite elem_of_nil. tauto.
  - cbn [foldl]. destruct (IH (player_step S st p)) as (H1 & H2 & H3 & H4).
    split_and!.
    + intros q. rewrite H1, player_step_plays.
      destruct (decide (q = p)) as [->|Hne].
      * rewrite (decide_False (P := p ∈ ps ∧ _)) by tauto.
        destruct (decide (p ∈ S)).
        -- rewrite !decide_True; [lia|split; [left|done]|done].
        -- rewrite !decide_False; [lia|tauto|tauto].
      * rewrite (decide_False (P := q = p ∧ _)) by tauto.
        destruct (decide (q ∈ ps ∧ q ∈ S)) as [[? ?]|Hn].
        -- rewrite decide_True; [lia|split; [by right|done]].
        -- rewrite decide_False; [lia|]. rewrite elem_of_cons. tauto.
    + intros q. rewrite H2, player_step_plays_dom, elem_of_cons.
      split; [|intros [?|[[->|?] ?]]; auto]. intros [[?|[-> ?]]|[? ?]]; auto.
    + intros q. rewrite H3, !player_step_rest.
      destruct (decide (q = p)) as [->|Hne].
      * rewrite (decide_False (P := p ∈ ps)) by done.
        rewrite (decide_True (P := p ∈ p :: ps)) by left. done.
      * destruct (decide (q ∈ ps)).
        -- rewrite (decide_True (P := q ∈ p :: ps)) by by right. done.
        -- rewrite (decide_False (P := q ∈ p :: ps)); [done|].
           rewrite elem_of_cons. tauto.
    + rewrite H4, player_step_pen. cbn [map Zsum foldr]. fold (Zsum).
      rewrite (Zsum_map_ext _
        (λ p0, if decide (p0 ∈ S) then 0
               else if decide (2 ≤ rest_streak st !!! p0 + 1)
                    then rest_streak st !!! p0 else 0) ps).
      * unfold Zsum. lia.
      * intros q Hq. rewrite player_step_rest.
        rewrite (decide_False (P := q = p)); [done|]. by intros ->.
Qed.

Lemma Zsum_map_add {A : Type} (f g : A → Z) (l : list A) :
  Zsum (map f l) + Zsum (map g l) = Zsum (map (λ x, f x + g x) l).
Proof. induction l as [|x l IH]; simpl; lia. Qed.

Lemma play_count_cons (m : Match) (sch : list Match) (q : Player) :
  Spec.play_count (m :: sch) q
  = (if decide (q ∈ players_of m) then 1 else 0) + Spec.play_count sch q.
Proof.
  unfold Spec.play_count. rewrite filter_cons. case_decide; simpl; lia.
Qed.

Lemma match_step_players (ps : list Player) (st : score_state) (m : Match) :
  NoDup ps →
  let st1 := match_step ps st m in
  (∀ q, q ∈ ps →
        plays st1 !!! q
        = plays st !!! q + (if decide (q ∈ players_of m) then 1 else 0)) ∧
  (∀ q, is_Some (plays st1 !! q)
        ↔ is_Some (plays st !! q) ∨ (q ∈ ps ∧ q ∈ players_of m)) ∧
  (∀ q, q ∈ ps →
        rest_streak st1 !!! q
        = if decide (q ∈ players_of m) then 0 else rest_streak st !!! q + 1) ∧
  rest_streak_pen st1
  = rest_streak_pen st
    + Zsum (map (λ p, if decide (p ∈ players_of m) then 0
                      else if decide (2 ≤ rest_streak st !!! p + 1)
                           then rest_streak st !!! p else 0) ps).
Proof.
  intros Hnd. cbv zeta. unfold match_step.
  cbn [plays rest_streak rest_streak_pen].
  destruct (player_loop (list_to_set (players_of m)) ps st Hnd)
    as (H1 & H2 & H3 & H4).
  assert (HS : ∀ q : Player,
    q ∈ (list_to_set (players_of m) : gset Player) ↔ q ∈ players_of m)
    by (intros; apply elem_of_list_to_set).
  split_and!.
  - intros q Hq. rewrite H1.
    destruct (decide (q ∈ players_of m)) as [Hm|Hm].
    + rewrite decide_True; [done|]. by rewrite HS.
    + rewrite decide_False; [done|]. rewrite HS. tauto.
  - intros q. rewrite H2, HS. done.
  - intros q Hq. rewrite H3. rewrite decide_True by done.
    destruct (decide (q ∈ players_of m)) as [Hm|Hm].
    + rewrite decide_True; [done|]. by rewrite HS.
    + rewrite decide_False; [done|]. by rewrite HS.
  - rewrite H4. f_equal. apply Zsum_map_ext. intros q _.
    destruct (decide (q ∈ players_of m)) as [Hm|Hm].
    + rewrite decide_True; [done|]. by rewrite HS.
    + rewrite decide_False; [done|]. by rewrite HS.
Qed.

Lemma match_loop_players (ps : list Player) (sch : list Match)
    (st : score_state) :
  NoDup ps →
  let st' := foldl (match_step ps) st sch in
  (∀ q, q ∈ ps → plays st' !!! q = plays st !!! q + Spec.play_count sch q) ∧
  ((∀ q, is_Some (plays st !! q) ↔ q ∈ ps) →
   (∀ q, is_Some (plays st' !! q) ↔ q ∈ ps)) ∧
  (∀ q, q ∈ ps →
        rest_streak st' !!! q = streak_after q sch (rest_streak st !!! q)) ∧
  rest_streak_pen st'
  = rest_streak_pen st
    + Zsum (map (λ p, pen_from p sch (rest_streak st !!! p)) ps).
Proof.
  intros Hnd. revert st. induction sch as [|m sch IH]; intros st.
  - cbn [foldl]. split_and!; try done.
    + intros q _. unfold Spec.play_count. simpl. lia.
    + simpl. rewrite Zsum_zero; [lia|done].
  - cbn [foldl]. destruct (IH (match_step ps st m)) as (H1 & H2 & H3 & H4).
    destruct (match_step_players ps st m Hnd) as (S1 & S2 & S3 & S4).
    split_and!.
    + intros q Hq. rewrite H1, S1, play_count_cons by done. lia.
    + intros Hdom. apply H2. intros q. rewrite S2, Hdom. tauto.
    + intros q Hq. rewrite H3, S3 by done. simpl.
      by destruct (decide (q ∈ players_of m)).
    + rewrite H4, S4, <- Z.add_assoc, Zsum_map_add. f_equal.
      apply Zsum_map_ext. intros q Hq. rewrite S3 by done. simpl.
      destruct (decide (q ∈ players_of m)); [lia|done].
Qed.

(** What a participant adds to the penalty is the cost of the absence runs. *)
Lemma pen_from_runs (p : Player) (sch : list Match) (k : nat) :
  pen_from p sch (Z.of_nat k) + Spec.streak_cost k
  = Zsum (map Spec.streak_cost (Spec.absence_runs p sch k)).
Proof.
  revert k. induction sch as [|m sch IH]; intros k; simpl.
  - lia.
  - destruct (decide (p ∈ players_of m)).
    + pose proof (IH O) as E. change (Z.of_nat 0) with 0 in E.
      unfold Zsum in *. cbn [map foldr Spec.streak_cost] in *. lia.
    + pose proof (IH (Datatypes.S k)) as E.
      replace (Z.of_nat (Datatypes.S k)) with (Z.of_nat k + 1) in E by lia.
      cbn [Spec.streak_cost] in E. case_decide; lia.
Qed.

(** ** The dictionaries built from the roster *)

Lemma zero_dict_lookup_aux (ps : list Player) (d : gmap Player Z) (q : Player) :
  foldl (λ d p, <[p := 0]> d) d ps !! q
  = if decide (q ∈ ps) then Some 0 else d !! q.
Proof.
  revert d. induction ps as [|p ps IH]; intros d; cbn [foldl].
  - rewrite decide_False; [done|]. apply not_elem_of_nil.
  - rewrite IH. destruct (decide (q ∈ ps)) as [Hq|Hq].
    + rewrite decide_True; [done|]. by right.
    + destruct (decide (p = q)) as [->|Hne].
      * rewrite lookup_insert_eq. rewrite decide_True; [done|]. left.
      * rewrite lookup_insert_ne by done. rewrite decide_False; [done|].
        rewrite elem_of_cons. naive_solver.
Qed.

Lemma zero_dict_lookup (ps : list Player) (q : Player) :
  zero_dict ps !! q = if decide (q ∈ ps) then Some 0 else None.
Proof. unfold zero_dict. by rewrite zero_dict_lookup_aux, lookup_empty. Qed.

Lemma zero_dict_total (ps : list Player) (q : Player) :
  q ∈ ps → zero_dict ps !!! q = 0.
Proof.
  intros Hq. rewrite lookup_total_alt, zero_dict_lookup.
  by rewrite decide_True.
Qed.

(** The items of a dictionary whose keys are the roster. *)
Lemma roster_dict_items (d : gmap Player Z) (ps : list Player) :
  NoDup ps → (∀ q, is_Some (d !! q) ↔ q ∈ ps) →
  map_to_list d ≡ₚ (λ p, (p, d !!! p)) <$> ps.
Proof.
  intros Hnd Hdom. apply NoDup_Permutation.
  - apply NoDup_map_to_list.
  - apply NoDup_fmap_2_strong; [|done]. by intros ???? [=].
  - intros [k v]. rewrite elem_of_map_to_list, list_elem_of_fmap. split.
    + intros Hk. exists k. split.
      * by rewrite (lookup_total_correct _ _ _ Hk).
      * apply Hdom. by eexists.
    + intros (p & [= -> ->] & Hp). apply Hdom in Hp as [v Hv].
      by rewrite (lookup_total_correct _ _ _ Hv).
Qed.


(** ** The score *)

Lemma score_schedule_refines_spec (cfg : Config) (sch : list Match)
    (ps : list Player) (pm : bool) :
  NoDup ps → ps ≠ [] →
  ∃ s, score_schedule cfg sch ps pm = Ok s ∧
    (s == W_PLAY_BALANCE cfg * Spec.play_variance sch ps
          + W_TEAMMATE_MISSING cfg * inject_Z (Spec.missing sch ps ^ 2)
          + W_TEAMMATE_REPEAT cfg * inject_Z (Spec.repeats sch ps)
          + W_OPP_REPEAT cfg * inject_Z (Spec.opponent_repeats sch)
          + W_CONSEC_REST cfg * inject_Z (Spec.rest_penalty sch ps)
          + (if pm
             then W_PERFECT_DEVIATION cfg * inject_Z (Spec.deviation sch ps)
             else 0))%Q.
Proof.
  intros Hnd Hne. unfold score_schedule.
  rewrite decide_False by (destruct ps; [done|simpl; lia]).
  destruct (match_loop_counts ps sch (score_init ps)) as [Htc Hoc].
  destruct (match_loop_players ps sch (score_init ps) Hnd)
    as (Hpl & Hdom & _ & Hpen).
  cbv zeta in Hpl, Hdom, Hpen.
  set (st := foldl (match_step ps) (score_init ps) sch) in *.
  cbn [score_init teammate_counts opp_counts plays rest_streak
       rest_streak_pen] in Htc, Hoc, Hpl, Hdom, Hpen.
  rewrite Htc, Hoc, pair_loop_spec, opp_repeats_spec.
  assert (Hvals : values (plays st) ≡ₚ map (Spec.play_count sch) ps).
  { unfold values. rewrite (roster_dict_items (plays st) ps Hnd).
    - rewrite <- list_fmap_compose.
      rewrite (list_fmap_ext _ (Spec.play_count sch)); [reflexivity|].
      intros i p Hp. simpl.
      assert (Hin : p ∈ ps) by (by eapply list_elem_of_lookup_2).
      rewrite Hpl, zero_dict_total by done. lia.
    - apply Hdom. intros q. rewrite zero_dict_lookup.
      case_decide; [by split; [|eexists]|].
      split; [by intros ?%is_Some_None|done]. }
  assert (Hrest : rest_streak_pen st = Spec.rest_penalty sch ps).
  { rewrite Hpen. unfold Spec.rest_penalty. rewrite Z.add_0_l.
    apply Zsum_map_ext. intros p Hp. rewrite zero_dict_total by done.
    rewrite <- (pen_from_runs p sch O). change (Z.of_nat 0) with 0.
    simpl. lia. }
  rewrite Hrest, (Zsum_Permutation _ _ Hvals).
  eexists. split; [reflexivity|].
  set (mean := (inject_Z (Zsum (map (Spec.play_count sch) ps))
                / inject_Z (Z.of_nat (length ps)))%Q).
  assert (Hvar :
    (Qsum (map (λ v, (inject_Z v - mean) ^ 2) (values (plays st)))
     == Qsum (map (λ v, (inject_Z v - mean) ^ 2)
                  (map (Spec.play_count sch) ps)))%Q).
  { apply Qsum_Permutation, Permutation_map, Hvals. }
  unfold Spec.play_variance. fold mean. cbv zeta.
  set (X := Qsum (map (λ v, (inject_Z v - mean) ^ 2)%Q (values (plays st))))
    in *.
  set (Y := Qsum (map (λ v, (inject_Z v - mean) ^ 2)%Q
                      (map (Spec.play_count sch) ps))) in *.
  clearbody X Y mean. destruct pm; rewrite Hvar; [reflexivity|]. ring.
Qed.

(** The weighted sum in exact arithmetic. With the float operations taken
    as exact, [score_schedule] on a non-empty roster of pairwise-distinct
    participants gives 10 * play-count variance + 25 * (number of uncovered
    teammate pairs) squared + 6 * teammate repeats + 2 * opponent repeats +
    6/5 * rest-streak penalty, plus 40 * sum over pairs of
    |teammate count - 1| in perfect mode. What the program returns in
    binary64 is stated further down, over [B64.score_schedule]. *)
Lemma score_schedule_exact_weighted_sum (sch : list Match) (ps : list Player)
    (pm : bool) :
  NoDup ps → ps ≠ [] →
  ∃ s, score_schedule module_config sch ps pm = Ok s ∧
       (s == Spec.score sch ps pm)%Q.
Proof.
  intros Hnd Hne.
  destruct (score_schedule_refines_spec module_config sch ps pm Hnd Hne)
    as (s & Hs & Heq).
  exists s. split; [exact Hs|]. exact Heq.
Qed.

(** ** The search never raises on a proper roster *)

Lemma score_schedule_ok (cfg : Config) (sch : list Match) (ps : list Player)
    (pm : bool) :
  ps ≠ [] → ∃ s, score_schedule cfg sch ps pm = Ok s.
Proof.
  intros Hne. unfold score_schedule.
  rewrite decide_False by (destruct ps; [done|simpl; lia]).
  destruct (foldl _ (0, 0, 0) _) as [[mi de] re]. eauto.
Qed.

Section search_props.
Context `{Random}.

Lemma bind_Ok {A B : Type} (m : M A) (f : A → M B) g x g' :
  m g = Ok (x, g') → bind m f g = f x g'.
Proof. unfold bind. by intros ->. Qed.

Lemma repeatM_inv {S : Type} (I : S → Prop) (body : S → M S) (n : nat) :
  (∀ s g, I s → ∃ s' g', body s g = Ok (s', g') ∧ I s') →
  ∀ s g, I s → ∃ s' g', repeatM n body s g = Ok (s', g') ∧ I s'.
Proof.
  intros Hbody. induction n as [|n IH]; intros s g Hs; simpl.
  - by exists s, g.
  - destruct (Hbody s g Hs) as (s1 & g1 & E1 & H1).
    rewrite (bind_Ok _ _ _ _ _ E1). by apply IH.
Qed.

Lemma choice_ok {A : Type} (seq : list A) g :
  seq ≠ [] → ∃ x g', choice seq g = Ok (x, g') ∧ x ∈ seq.
Proof.
  intros Hne. unfold choice.
  rewrite decide_False by (destruct seq; [done|simpl; lia]).
  unfold bind, lift, getitem.
  pose proof (randbelow_lt (length seq) g) as Hlt.
  destruct (randbelow (length seq) g) as [i g'] eqn:E. simpl in Hlt.
  destruct (lookup_lt_is_Some_2 seq i) as [x Hx].
  { apply Hlt. destruct seq; [done|simpl; lia]. }
  rewrite Hx. exists x, g'. split; [done|].
  by eapply list_elem_of_lookup_2.
Qed.

Lemma choice_empty {A : Type} g : choice (@nil A) g = Raise IndexError.
Proof. reflexivity. Qed.

Lemma listM_choice_ok {A : Type} (seq : list A) (n : nat) g :
  seq ≠ [] →
  ∃ xs g', listM n (choice seq) g = Ok (xs, g') ∧
           length xs = n ∧ Forall (λ x, x ∈ seq) xs.
Proof.
  intros Hne. revert g. induction n as [|n IH]; intros g; simpl.
  - by exists [], g.
  - destruct (choice_ok seq g Hne) as (x & g1 & E1 & Hx).
    rewrite (bind_Ok _ _ _ _ _ E1).
    destruct (IH g1) as (xs & g2 & E2 & Hlen & Hall).
    rewrite (bind_Ok _ _ _ _ _ E2).
    exists (x :: xs), g2. simpl. split; [done|]. split; [lia|]. by constructor.
Qed.

Lemma Qltb_lt (x y : Q) : Qltb x y = true → (x < y)%Q.
Proof.
  unfold Qltb. rewrite negb_true_iff. intros Hle.
  apply Qnot_le_lt. intros Hyx. apply Qle_bool_iff in Hyx. congruence.
Qed.

Lemma improve_step_ok (cfg : Config) (init candidates : list Match)
    (ps : list Player) (pm : bool) (s0 : Q) (st : list Match * Q) g :
  init ≠ [] → candidates ≠ [] → ps ≠ [] →
  improve_inv cfg init candidates ps pm s0 st →
  ∃ st' g', improve_step cfg candidates ps pm st g = Ok (st', g') ∧
            improve_inv cfg init candidates ps pm s0 st'.
Proof.
  intros Hinit Hcand Hps (Hlen & Hall & Hsc & Hle).
  destruct st as [best sc]. simpl in *. unfold improve_step.
  assert (Hpos : (0 < length best)%nat).
  { rewrite Hlen. destruct init; [done|simpl; lia]. }
  unfold randrange. rewrite decide_True by done.
  pose proof (randbelow_lt (length best) g Hpos) as Hi.
  destruct (randbelow (length best) g) as [i g1] eqn:E1. simpl in Hi.
  rewrite (bind_Ok _ _ g i g1) by (by rewrite E1).
  destruct (choice_ok candidates g1 Hcand) as (c & g2 & E2 & Hc).
  rewrite (bind_Ok _ _ _ _ _ E2).
  unfold setitem. rewrite decide_True by done.
  unfold bind at 1. unfold lift at 1.
  destruct (score_schedule_ok cfg (<[i:=c]> best) ps pm Hps) as [s Hs].
  unfold bind, lift. rewrite Hs.
  destruct (Qltb s sc) eqn:Hlt.
  - eexists _, g2. split; [reflexivity|]. split_and!; simpl.
    + by rewrite length_insert.
    + apply Forall_insert; [done|by right].
    + done.
    + apply Qltb_lt in Hlt. apply Qlt_le_weak in Hlt.
      by eapply Qle_trans.
  - eexists _, g2. split; [reflexivity|]. by split_and!.
Qed.

(** [improve_schedule] returns a schedule of the length of [init], made of
    matches of [init] and of candidates, whose score is not above that of
    [init]. *)
Lemma improve_schedule_ok (cfg : Config) (init candidates : list Match)
    (ps : list Player) (pm : bool) (steps : nat) g :
  init ≠ [] → candidates ≠ [] → ps ≠ [] →
  ∃ best g' s0 s,
    improve_schedule cfg init candidates ps pm steps g = Ok (best, g') ∧
    length best = length init ∧
    Forall (λ m, m ∈ init ∨ m ∈ candidates) best ∧
    score_schedule cfg init ps pm = Ok s0 ∧
    score_schedule cfg best ps pm = Ok s ∧
    (s <= s0)%Q.
Proof.
  intros Hinit Hcand Hps. unfold improve_schedule.
  destruct (score_schedule_ok cfg init ps pm Hps) as [s0 Hs0].
  unfold bind at 1. unfold lift at 1. rewrite Hs0.
  destruct (repeatM_inv (improve_inv cfg init candidates ps pm s0)
              (improve_step cfg candidates ps pm) steps) with (s := (init, s0))
    (g := g) as ([best s] & g' & E & Hlen & Hall & Hsc & Hle).
  - intros st g0 Hst. by apply improve_step_ok.
  - split_and!; simpl; [done| |done|apply Qle_refl].
    apply Forall_forall. by left.
  - rewrite (bind_Ok _ _ _ _ _ E). exists best, g', s0, s. by split_and!.
Qed.
End search_props.

(** ** The candidate universe of a roster of at most eight *)

Lemma binomial_4_le (n : nat) : (n ≤ 8)%nat → (binomial n 4 ≤ 70)%nat.
Proof.
  intros Hn.
  do 9 (destruct n as [|n]; [vm_compute; lia|]). lia.
Qed.

Lemma generate_candidate_matches_le (ps : list Player) :
  (length ps ≤ 8)%nat →
  ∃ cands, generate_candidate_matches ps = Ok cands ∧
           (length cands ≤ 210)%nat.
Proof.
  intros Hn. eexists. split; [apply generate_candidate_matches_bind|].
  pose proof (uniq_of_length (combinations ps 4 ≫= partitions)).
  pose proof (candidates_length_le ps).
  pose proof (binomial_4_le _ Hn). lia.
Qed.

Lemma generate_candidate_matches_nonempty (ps : list Player) :
  (4 ≤ length ps)%nat →
  ∃ cands, generate_candidate_matches ps = Ok cands ∧ cands ≠ [].
Proof.
  intros Hn. eexists. split; [apply generate_candidate_matches_bind|].
  apply uniq_of_nonempty.
  pose proof (combinations_nonempty ps 4 Hn) as Hc.
  destruct (combinations ps 4) as [|c cs] eqn:E; [done|].
  rewrite bind_cons. intros [Hp _]%app_eq_nil. revert Hp.
  apply partitions_nonempty.
  assert (Hin : c ∈ combinations ps 4) by (rewrite E; left).
  apply combinations_length in Hin. lia.
Qed.

Section build_props.
Context `{Random}.

Lemma subsample_skip (cfg : Config) (cands : list Match) g :
  (length cands ≤ CANDIDATE_SAMPLE cfg)%nat →
  subsample cfg cands g = Ok (cands, g).
Proof.
  intros Hle. unfold subsample. rewrite decide_False by lia. done.
Qed.

Lemma restart_step_ok (cfg : Config) (cands : list Match) (ps : list Player)
    (M_ : Z) (pm : bool) (st : list Match * option Q) g :
  cands ≠ [] → ps ≠ [] → 0 < M_ →
  st.2 = None ∨ restart_inv cfg cands ps M_ pm st →
  ∃ st' g', restart_step cfg cands ps M_ pm st g = Ok (st', g') ∧
            restart_inv cfg cands ps M_ pm st'.
Proof.
  intros Hcand Hps HM Hst. destruct st as [bs sc]. unfold restart_step.
  destruct (listM_choice_ok cands (Z.to_nat M_) g Hcand)
    as (init & g1 & E1 & Hlen & Hall).
  rewrite (bind_Ok _ _ _ _ _ E1).
  assert (Hinit : init ≠ []) by (intros ->; simpl in Hlen; lia).
  destruct (improve_schedule_ok cfg init cands ps pm (LOCAL_STEPS cfg) g1
              Hinit Hcand Hps)
    as (best & g2 & s0 & s & E2 & Hblen & Hball & _ & Hs & _).
  rewrite (bind_Ok _ _ _ _ _ E2).
  unfold bind, lift. rewrite Hs.
  assert (Hbest : restart_inv cfg cands ps M_ pm (best, Some s)).
  { exists s. simpl. split_and!; [done|lia| |done].
    rewrite Forall_forall in Hball, Hall. apply Forall_forall.
    intros m Hm. destruct (Hball m Hm); auto. }
  destruct sc as [bsc|].
  - destruct (Qltb s bsc).
    + by eexists _, g2.
    + eexists _, g2. split; [done|]. by destruct Hst.
  - by eexists _, g2.
Qed.

(** With at least one restart, a non-empty candidate list that needs no
    subsampling and a positive match count, [build_schedule] returns. *)
Lemma build_schedule_ok (cfg : Config) (ps : list Player) (cands : list Match)
    (M_ : Z) (pm : bool) :
  generate_candidate_matches ps = Ok cands → cands ≠ [] → ps ≠ [] →
  (length cands ≤ CANDIDATE_SAMPLE cfg)%nat →
  choose_match_count (Z.of_nat (length ps)) = (M_, pm) → 0 < M_ →
  (1 ≤ SEARCH_RESTARTS cfg)%nat →
  ∃ sched s, build_schedule cfg ps = Ok (sched, M_, pm) ∧
             length sched = Z.to_nat M_ ∧
             Forall (λ m, m ∈ cands) sched ∧
             score_schedule cfg sched ps pm = Ok s.
Proof.
  intros Hgen Hcand Hps Hsample HM Hpos Hres.
  unfold build_schedule, build_schedule_on. rewrite HM, Hgen.
  unfold bind at 1. unfold lift at 1.
  rewrite (bind_Ok _ _ _ _ _ (subsample_skip cfg cands _ Hsample)).
  destruct (SEARCH_RESTARTS cfg) as [|n]; [lia|]. cbn [repeatM].
  destruct (restart_step_ok cfg cands ps M_ pm ([], None)
              (seed_state (RANDOM_SEED cfg)) Hcand Hps Hpos)
    as (st1 & g1 & E1 & H1); [by left|].
  unfold bind at 1. rewrite (bind_Ok _ _ _ _ _ E1).
  destruct (repeatM_inv (restart_inv cfg cands ps M_ pm)
              (restart_step cfg cands ps M_ pm) n) with (s := st1) (g := g1)
    as ([sched sc] & g2 & E2 & s & Hsc & Hlen & Hall & Hs); [|done|].
  - intros st g Hst. apply restart_step_ok; auto.
  - rewrite E2. simpl in *. by exists sched, s.
Qed.
End build_props.

(** C10. For every roster of at most eight participants (distinct or not)
    the candidate list has at most 3 * C(8,4) = 210 matches, which is below
    CANDIDATE_SAMPLE = 1200: the subsampling branch of [build_schedule] is
    not taken, the candidate list is passed on unchanged and the generator
    is not touched by it. *)
Theorem candidates_never_subsampled `{Random} (ps : list Player) :
  (length ps ≤ 8)%nat →
  ∃ cands, generate_candidate_matches ps = Ok cands ∧
    (length cands ≤ 3 * binomial 8 4)%nat ∧
    (3 * binomial 8 4 = 210)%nat ∧
    (210 < CANDIDATE_SAMPLE module_config)%nat ∧
    ∀ g, subsample module_config cands g = Ok (cands, g).
Proof.
  intros Hn. destruct (generate_candidate_matches_le ps Hn) as (cands & Hg & Hle).
  assert (Hs : (210 < CANDIDATE_SAMPLE module_config)%nat).
  { apply Nat.ltb_lt. vm_compute. reflexivity. }
  exists cands. split; [done|]. split; [exact Hle|]. split; [reflexivity|].
  split; [exact Hs|]. intros g. apply subsample_skip. lia.
Qed.

Lemma candidates_never_subsampled_witness :
  ∃ cands, generate_candidate_matches ["A"; "B"; "C"; "D"; "E"; "F"] = Ok cands ∧
    (length cands ≤ 210)%nat ∧
    @subsample lcg module_config cands 42 = Ok (cands, 42).
Proof.
  assert (Hn : (length ["A"; "B"; "C"; "D"; "E"; "F"] ≤ 8)%nat)
    by (simpl; lia).
  destruct (@candidates_never_subsampled lcg _ Hn)
    as (cands & Hg & Hle & _ & _ & Hs).
  exists cands. split; [exact Hg|]. split; [exact Hle | exact (Hs 42)].
Defined.

(** C9. For every roster of 4 to 8 participants [build_schedule] returns,
    without raising, a schedule of exactly M matches, M being the count
    chosen by [choose_match_count]; the schedule is never the empty initial
    [best_schedule]. *)
Theorem build_schedule_returns `{Random} (ps : list Player) :
  (4 ≤ length ps ≤ 8)%nat →
  ∃ sched M_ pm,
    build_schedule module_config ps = Ok (sched, M_, pm) ∧
    choose_match_count (Z.of_nat (length ps)) = (M_, pm) ∧
    Z.of_nat (length sched) = M_ ∧
    sched ≠ [].
Proof.
  intros [Hlo Hhi].
  destruct (generate_candidate_matches_nonempty ps Hlo) as (cands & Hg & Hne).
  destruct (generate_candidate_matches_le ps Hhi) as (cands' & Hg' & Hle).
  assert (cands' = cands) as -> by congruence.
  destruct (choose_match_count (Z.of_nat (length ps))) as [M_ pm] eqn:HM.
  assert (HMpos : 0 < M_).
  { assert (Hr : 4 ≤ Z.of_nat (length ps) ≤ 8) by lia.
    destruct (small_range _ Hr) as [E | [E | [E | [E | E]]]];
      rewrite E in HM; vm_compute in HM; injection HM as <- <-; lia. }
  assert (Hps : ps ≠ []) by (intros ->; simpl in Hlo; lia).
  destruct (build_schedule_ok module_config ps cands M_ pm Hg Hne Hps)
    as (sched & s & Hb & Hlen & _ & _); try done.
  - etrans; [exact Hle|]. apply Nat.leb_le. vm_compute. reflexivity.
  - apply Nat.leb_le. vm_compute. reflexivity.
  - exists sched, M_, pm. split; [done|]. split; [done|]. split; [lia|].
    intros ->. simpl in Hlen. lia.
Qed.

Lemma build_schedule_returns_witness :
  ∃ sched, @build_schedule lcg module_config ["A"; "B"; "C"; "D"]
             = Ok (sched, 3, true) ∧ length sched = 3%nat.
Proof.
  assert (Hn : (4 ≤ length ["A"; "B"; "C"; "D"] ≤ 8)%nat) by (simpl; lia).
  destruct (@build_schedule_returns lcg _ Hn)
    as (sched & M_ & pm & Hb & HM & Hlen & _).
  vm_compute in HM. injection HM as <- <-.
  exists sched. split; [exact Hb | lia].
Defined.

(** * Further properties of the engine *)

(** ** The hill climb *)

Section improve_extra.
Context `{Random}.

(** X1. [improve_schedule], started on a non-empty schedule with a
    non-empty candidate list and roster, returns a schedule of the same
    length, made of matches of [init] and of candidates, whose score is not
    above the score of [init]: the hill climb never makes a schedule
    worse. *)
Theorem improve_schedule_never_worse (cfg : Config)
    (init candidates : list Match) (ps : list Player) (pm : bool)
    (steps : nat) (g : rng_state) :
  init ≠ [] → candidates ≠ [] → ps ≠ [] →
  ∃ best g' s0 s,
    improve_schedule cfg init candidates ps pm steps g = Ok (best, g') ∧
    length best = length init ∧
    Forall (λ m, m ∈ init ∨ m ∈ candidates) best ∧
    score_schedule cfg init ps pm = Ok s0 ∧
    score_schedule cfg best ps pm = Ok s ∧
    (s <= s0)%Q.
Proof. apply improve_schedule_ok. Qed.

Lemma improve_step_empty (cfg : Config) (candidates : list Match)
    (ps : list Player) (pm : bool) (sc : Q) (g : rng_state) :
  improve_step cfg candidates ps pm ([], sc) g = Raise ValueError.
Proof. reflexivity. Qed.

(** X2. On an empty [init] the first step of the hill climb asks for
    [randrange(0)]: with a non-empty roster and at least one step,
    [improve_schedule] raises [ValueError]. *)
Theorem improve_schedule_empty_init (cfg : Config) (candidates : list Match)
    (ps : list Player) (pm : bool) (steps : nat) (g : rng_state) :
  ps ≠ [] → (0 < steps)%nat →
  improve_schedule cfg [] candidates ps pm steps g = Raise ValueError.
Proof.
  intros Hps Hsteps. unfold improve_schedule.
  destruct (score_schedule_ok cfg [] ps pm Hps) as [s0 Hs0].
  unfold bind at 1. unfold lift at 1. rewrite Hs0.
  destruct steps as [|n]; [lia|]. cbn [repeatM].
  unfold bind. by rewrite improve_step_empty.
Qed.

(** X3. With no steps the hill climb returns [init] itself and leaves the
    generator as it was; the roster must be non-empty because [init] is
    scored first. *)
Theorem improve_schedule_no_steps (cfg : Config)
    (init candidates : list Match) (ps : list Player) (pm : bool)
    (g : rng_state) :
  ps ≠ [] →
  improve_schedule cfg init candidates ps pm 0 g = Ok (init, g).
Proof.
  intros Hps. unfold improve_schedule.
  destruct (score_schedule_ok cfg init ps pm Hps) as [s0 Hs0].
  unfold bind, lift. by rewrite Hs0.
Qed.
End improve_extra.

Lemma improve_schedule_never_worse_witness :
  ∃ best g' s0 s,
    @improve_schedule lcg short_config
      [mkMatch ("A", "B") ("C", "D"); mkMatch ("A", "B") ("C", "D")]
      [mkMatch ("A", "C") ("B", "D"); mkMatch ("A", "D") ("B", "C")]
      ["A"; "B"; "C"; "D"] true 5 7 = Ok (best, g') ∧
    length best = 2%nat ∧
    score_schedule short_config
      [mkMatch ("A", "B") ("C", "D"); mkMatch ("A", "B") ("C", "D")]
      ["A"; "B"; "C"; "D"] true = Ok s0 ∧
    score_schedule short_config best ["A"; "B"; "C"; "D"] true = Ok s ∧
    (s <= s0)%Q.
Proof.
  destruct (@improve_schedule_never_worse lcg short_config
    [mkMatch ("A", "B") ("C", "D"); mkMatch ("A", "B") ("C", "D")]
    [mkMatch ("A", "C") ("B", "D"); mkMatch ("A", "D") ("B", "C")]
    ["A"; "B"; "C"; "D"] true 5 7)
    as (best & g' & s0 & s & E & Hlen & _ & Hs0 & Hs & Hle);
    [discriminate..|].
  exists best, g', s0, s. split; [exact E|]. split; [exact Hlen|].
  split; [exact Hs0|]. split; [exact Hs | exact Hle].
Defined.

Lemma improve_schedule_empty_init_witness :
  @improve_schedule lcg short_config []
    [mkMatch ("A", "C") ("B", "D")] ["A"; "B"; "C"; "D"] false 3 7
  = Raise ValueError.
Proof.
  apply (@improve_schedule_empty_init lcg); [discriminate | lia].
Defined.

Lemma improve_schedule_no_steps_witness :
  @improve_schedule lcg short_config [mkMatch ("A", "B") ("C", "D")]
    [] ["A"; "B"; "C"; "D"] false 0 7
  = Ok ([mkMatch ("A", "B") ("C", "D")], 7).
Proof. apply (@improve_schedule_no_steps lcg). discriminate. Defined.

(** ** Rosters that are too short *)

Lemma combinations_short {A : Type} (l : list A) (r : nat) :
  (length l < r)%nat → combinations l r = [].
Proof.
  revert r. induction l as [|x l IH]; intros [|r] Hr; simpl in *; try lia.
  - done.
  - rewrite !IH by lia. done.
Qed.

Lemma generate_candidate_matches_short (ps : list Player) :
  (length ps < 4)%nat → generate_candidate_matches ps = Ok [].
Proof.
  intros Hn. rewrite generate_candidate_matches_bind.
  by rewrite combinations_short.
Qed.

Section short_roster.
Context `{Random}.

Lemma build_schedule_short_roster_cfg (cfg : Config) (ps : list Player) :
  (1 ≤ SEARCH_RESTARTS cfg)%nat → (1 ≤ LOCAL_STEPS cfg)%nat →
  (length ps < 4)%nat →
  build_schedule cfg ps
  = Raise (match length ps with
           | O => ZeroDivisionError
           | 1%nat => ValueError
           | _ => IndexError
           end).
Proof.
  intros Hres Hsteps Hn. unfold build_schedule, build_schedule_on.
  rewrite (generate_candidate_matches_short ps Hn).
  destruct (SEARCH_RESTARTS cfg) as [|n]; [lia|].
  destruct ps as [|p1 [|p2 [|p3 [|p4 ps]]]]; [| | | |simpl in Hn; lia].
  - change (choose_match_count (Z.of_nat (length []))) with (0, true).
    unfold bind at 1. unfold lift at 1.
    rewrite (bind_Ok _ _ _ _ _ (subsample_skip cfg [] _ (Nat.le_0_l _))).
    cbn [repeatM]. reflexivity.
  - change (choose_match_count (Z.of_nat (length [p1]))) with (0, true).
    unfold bind at 1. unfold lift at 1.
    rewrite (bind_Ok _ _ _ _ _ (subsample_skip cfg [] _ (Nat.le_0_l _))).
    cbn [repeatM]. unfold bind at 1. unfold bind at 1.
    unfold restart_step. change (Z.to_nat 0) with O. cbn [listM].
    unfold bind at 1. unfold ret at 1. unfold bind at 1.
    rewrite improve_schedule_empty_init by (done || lia). done.
  - change (choose_match_count (Z.of_nat (length [p1; p2])))
      with (1, false).
    unfold bind at 1. unfold lift at 1.
    rewrite (bind_Ok _ _ _ _ _ (subsample_skip cfg [] _ (Nat.le_0_l _))).
    cbn [repeatM]. reflexivity.
  - change (choose_match_count (Z.of_nat (length [p1; p2; p3])))
      with (3, false).
    unfold bind at 1. unfold lift at 1.
    rewrite (bind_Ok _ _ _ _ _ (subsample_skip cfg [] _ (Nat.le_0_l _))).
    cbn [repeatM]. reflexivity.
Qed.

(** X4. [build_schedule] has no guard of its own (the roster size is
    checked by [main]): on a roster of fewer than four names it raises.
    The empty roster fails on the division by [n] in [score_schedule]
    ([ZeroDivisionError]); one name gives M = 0 and an empty initial
    schedule, so the hill climb asks for [randrange(0)] ([ValueError]); two
    or three names give an empty candidate list, and [rng.choice] of it
    raises [IndexError]. *)
Theorem build_schedule_short_roster (ps : list Player) :
  (length ps < 4)%nat →
  build_schedule module_config ps
  = Raise (match length ps with
           | O => ZeroDivisionError
           | 1%nat => ValueError
           | _ => IndexError
           end).
Proof.
  apply build_schedule_short_roster_cfg;
    apply Nat.leb_le; vm_compute; reflexivity.
Qed.
End short_roster.

Lemma build_schedule_short_roster_witness :
  @build_schedule lcg module_config ["A"; "B"; "C"] = Raise IndexError.
Proof.
  apply (@build_schedule_short_roster lcg ["A"; "B"; "C"]). simpl. lia.
Defined.

(** ** What the returned schedule is made of *)

Lemma candidate_valid (ps : list Player) (m : Match) :
  NoDup ps → m ∈ combinations ps 4 ≫= partitions →
  canonical m ∧ NoDup (players_of m) ∧ players_of m ⊆ ps.
Proof.
  intros Hnd (c & Hm & Hc)%list_elem_of_bind.
  pose proof (combinations_sublist _ _ _ Hc) as Hsub.
  assert (Hcnd : NoDup c) by (by eapply sublist_NoDup).
  apply partitions_elem in Hm as [Hcan Hperm];
    [|done|by eapply combinations_length].
  split; [done|]. split; [by rewrite Hperm|].
  intros x Hx. rewrite Hperm in Hx. by eapply elem_of_sublist.
Qed.

(** X5. For a roster of 4 to 8 pairwise-distinct names, every match of the
    schedule that [build_schedule] returns is one of the candidates: it is
    in canonical form and is played by four pairwise-distinct members of
    the roster. (The same match may occur several times in the schedule.) *)
Theorem build_schedule_matches_valid `{Random} (ps : list Player) :
  NoDup ps → (4 ≤ length ps ≤ 8)%nat →
  ∃ sched M_ pm cands,
    build_schedule module_config ps = Ok (sched, M_, pm) ∧
    generate_candidate_matches ps = Ok cands ∧
    ∀ m, m ∈ sched →
      m ∈ cands ∧ canonical m ∧ NoDup (players_of m) ∧ players_of m ⊆ ps.
Proof.
  intros Hnd [Hlo Hhi].
  destruct (generate_candidate_matches_nonempty ps Hlo) as (cands & Hg & Hne).
  destruct (generate_candidate_matches_le ps Hhi) as (cands' & Hg' & Hle).
  assert (cands' = cands) as -> by congruence.
  destruct (choose_match_count (Z.of_nat (length ps))) as [M_ pm] eqn:HM.
  assert (HMpos : 0 < M_).
  { assert (Hr : 4 ≤ Z.of_nat (length ps) ≤ 8) by lia.
    destruct (small_range _ Hr) as [E | [E | [E | [E | E]]]];
      rewrite E in HM; vm_compute in HM; injection HM as <- <-; lia. }
  assert (Hps : ps ≠ []) by (intros ->; simpl in Hlo; lia).
  destruct (build_schedule_ok module_config ps cands M_ pm Hg Hne Hps)
    as (sched & s & Hb & Hlen & Hall & _); try done.
  - etrans; [exact Hle|]. apply Nat.leb_le. vm_compute. reflexivity.
  - apply Nat.leb_le. vm_compute. reflexivity.
  - exists sched, M_, pm, cands. split; [done|]. split; [done|].
    intros m Hm. rewrite Forall_forall in Hall. specialize (Hall m Hm).
    split; [done|]. apply candidate_valid; [done|].
    rewrite generate_candidate_matches_bind in Hg. injection Hg as <-.
    by rewrite uniq_of_NoDup in Hall by by apply candidates_NoDup.
Qed.

Lemma build_schedule_matches_valid_witness :
  ∃ sched M_ pm,
    @build_schedule lcg module_config ["A"; "B"; "C"; "D"; "E"]
      = Ok (sched, M_, pm) ∧
    ∀ m, m ∈ sched → canonical m ∧ NoDup (players_of m).
Proof.
  assert (Hnd : NoDup ["A"; "B"; "C"; "D"; "E"]).
  { apply (bool_decide_unpack _). vm_compute. reflexivity. }
  assert (Hn : (4 ≤ length ["A"; "B"; "C"; "D"; "E"] ≤ 8)%nat)
    by (simpl; lia).
  destruct (@build_schedule_matches_valid lcg _ Hnd Hn)
    as (sched & M_ & pm & cands & Hb & _ & Hall).
  exists sched, M_, pm. split; [exact Hb|].
  intros m Hm. destruct (Hall m Hm) as (_ & Hc & Hd & _).
  split; [exact Hc | exact Hd].
Defined.

(** ** De-duplication in the candidate generator, for any names *)

Lemma partitions_loop_spec (pairings : list (Team * Team))
    (seen : gset (Team * Team)) (acc : list Match) :
  (∀ m, match_key m ∈ seen ↔ m ∈ acc) → NoDup acc →
  NoDup (partitions_loop pairings seen acc) ∧
  ∀ m, m ∈ partitions_loop pairings seen acc
       ↔ m ∈ acc ∨ m ∈ (λ tt : Team * Team, normalize_match tt.1 tt.2)
                         <$> pairings.
Proof.
  revert seen acc. induction pairings as [|[t1 t2] rest IH];
    intros seen acc Hseen Hnd; cbn [partitions_loop].
  - split; [done|]. intros m. rewrite fmap_nil, elem_of_nil. tauto.
  - cbv zeta. rewrite fmap_cons. cbn [fst snd].
    destruct (decide (match_key (normalize_match t1 t2) ∈ seen)) as [Hin|Hin].
    + destruct (IH seen acc Hseen Hnd) as [IH1 IH2]. split; [done|].
      intros m. rewrite IH2, elem_of_cons. apply Hseen in Hin.
      split; [tauto|]. intros [?|[->|?]]; auto.
    + destruct (IH ({[match_key (normalize_match t1 t2)]} ∪ seen)
                   (acc ++ [normalize_match t1 t2])) as [IH1 IH2].
      * intros m. rewrite elem_of_union, elem_of_singleton, elem_of_app,
          list_elem_of_singleton, Hseen.
        split.
        -- intros [E|E]; [right; by apply (inj match_key)|by left].
        -- intros [E|E]; [by right|left; by rewrite E].
      * apply NoDup_app. split; [done|]. split; [|apply NoDup_singleton].
        intros m Hm ->%list_elem_of_singleton. apply Hin. by apply Hseen.
      * split; [done|]. intros m.
        rewrite IH2, elem_of_app, list_elem_of_singleton, elem_of_cons. tauto.
Qed.

(** X6. Whatever the four names are, equal or not,
    [all_team_partitions_of_four] returns between one and three matches,
    no two of them equal, all canonical, and they are exactly the
    normalised forms of the three pairings: the set [seen] removes the
    repetitions that equal names produce. *)
Theorem all_team_partitions_of_four_distinct (p0 p1 p2 p3 : Player)
    (more : list Player) :
  ∃ ms, all_team_partitions_of_four (p0 :: p1 :: p2 :: p3 :: more) = Ok ms ∧
    NoDup ms ∧ (1 ≤ length ms ≤ 3)%nat ∧
    (∀ m, m ∈ ms → canonical m) ∧
    ∀ m, m ∈ ms ↔ m = normalize_match (p0, p1) (p2, p3) ∨
                   m = normalize_match (p0, p2) (p1, p3) ∨
                   m = normalize_match (p0, p3) (p1, p2).
Proof.
  eexists. split; [reflexivity|].
  set (pairings := [((p0, p1), (p2, p3)); ((p0, p2), (p1, p3));
                    ((p0, p3), (p1, p2))]).
  destruct (partitions_loop_spec pairings ∅ []) as [Hnd Hel].
  { intros m. rewrite elem_of_nil. set_solver. }
  { apply NoDup_nil_2. }
  assert (Hel' : ∀ m, m ∈ partitions_loop pairings ∅ [] ↔
            m = normalize_match (p0, p1) (p2, p3) ∨
            m = normalize_match (p0, p2) (p1, p3) ∨
            m = normalize_match (p0, p3) (p1, p2)).
  { intros m. rewrite Hel. unfold pairings.
    rewrite !fmap_cons, fmap_nil, !elem_of_cons, !elem_of_nil. simpl. tauto. }
  split; [done|]. split; [|split; [|done]].
  - split.
    + pose proof (partitions_nonempty (p0 :: p1 :: p2 :: p3 :: more)) as Hne.
      unfold partitions, all_team_partitions_of_four in Hne.
      cbv zeta in Hne. fold pairings in Hne.
      destruct (partitions_loop pairings ∅ []); [|simpl; lia].
      exfalso. apply Hne; [simpl; lia|done].
    + pose proof (partitions_length_le (p0 :: p1 :: p2 :: p3 :: more)) as Hle.
      unfold partitions, all_team_partitions_of_four in Hle.
      cbv zeta in Hle. exact Hle.
  - intros m Hm. apply Hel' in Hm as [-> | [-> | ->]];
      apply canonical_normalize_match.
Qed.

Lemma dict_setitem_present (acc : list Match) (m : Match) :
  m ∈ acc →
  dict_setitem ((λ m0, (match_key m0, m0)) <$> acc) (match_key m) m
  = (λ m0, (match_key m0, m0)) <$> acc.
Proof.
  induction acc as [|m' acc IH]; [by intros ?%elem_of_nil|].
  rewrite fmap_cons. cbn [dict_setitem]. intros Hm.
  destruct (decide (match_key m' = match_key m)) as [E|Hne].
  - apply (inj match_key) in E. by subst.
  - f_equal. apply IH. apply elem_of_cons in Hm as [->|Hm]; [done|done].
Qed.

Lemma uniq_of_spec_aux (ms acc : list Match) :
  NoDup acc →
  ∃ acc', foldl (λ uniq m, dict_setitem uniq (match_key m) m)
                ((λ m, (match_key m, m)) <$> acc) ms
          = (λ m, (match_key m, m)) <$> acc' ∧
          NoDup acc' ∧ ∀ m, m ∈ acc' ↔ m ∈ acc ∨ m ∈ ms.
Proof.
  revert acc. induction ms as [|m ms IH]; intros acc Hnd; cbn [foldl].
  - exists acc. split; [done|]. split; [done|].
    intros m. rewrite elem_of_nil. tauto.
  - destruct (decide (m ∈ acc)) as [Hin|Hin].
    + rewrite dict_setitem_present by done.
      destruct (IH acc Hnd) as (acc' & E & Hnd' & Hel).
      exists acc'. split; [done|]. split; [done|].
      intros x. rewrite Hel, elem_of_cons. split; [tauto|].
      intros [?|[->|?]]; auto.
    + rewrite dict_setitem_fresh.
      * replace (((λ m0, (match_key m0, m0)) <$> acc) ++ [(match_key m, m)])
          with ((λ m0, (match_key m0, m0)) <$> (acc ++ [m]))
          by (by rewrite fmap_app).
        destruct (IH (acc ++ [m])) as (acc' & E & Hnd' & Hel).
        { apply NoDup_app. split; [done|]. split; [|apply NoDup_singleton].
          by intros x Hx ->%list_elem_of_singleton. }
        exists acc'. split; [done|]. split; [done|].
        intros x.
        rewrite Hel, elem_of_app, list_elem_of_singleton, elem_of_cons. tauto.
      * rewrite <- list_fmap_compose.
        intros (m' & Hk & Hm')%list_elem_of_fmap.
        simpl in Hk. apply (inj match_key) in Hk. by subst m'.
Qed.

(** The values of [uniq]: each candidate once. *)
Lemma uniq_of_spec (ms : list Match) :
  NoDup (dict_values (uniq_of ms)) ∧
  ∀ m, m ∈ dict_values (uniq_of ms) ↔ m ∈ ms.
Proof.
  destruct (uniq_of_spec_aux ms [] (NoDup_nil_2)) as (acc' & E & Hnd & Hel).
  unfold dict_values, uniq_of. simpl in E. rewrite E.
  rewrite <- list_fmap_compose.
  replace ((snd ∘ λ m : Match, (match_key m, m)) <$> acc') with acc'
    by (symmetry; apply list_fmap_id).
  split; [done|]. intros m. rewrite Hel, elem_of_nil. tauto.
Qed.

(** X7. For every roster, with repeated names or not,
    [generate_candidate_matches] returns without raising a list that
    holds no match twice; every match of it is canonical and is a split of
    some 4-combination of the roster, and every such split is in it. Its
    length is at most [3 * C(N,4)]; in particular it is empty for fewer
    than four names. *)
Theorem generate_candidate_matches_any_roster (ps : list Player) :
  ∃ cands, generate_candidate_matches ps = Ok cands ∧
    NoDup cands ∧
    (length cands ≤ 3 * binomial (length ps) 4)%nat ∧
    (∀ m, m ∈ cands ↔ ∃ c, c ∈ combinations ps 4 ∧ m ∈ partitions c) ∧
    ∀ m, m ∈ cands → canonical m.
Proof.
  eexists. split; [apply generate_candidate_matches_bind|].
  destruct (uniq_of_spec (combinations ps 4 ≫= partitions)) as [Hnd Hel].
  split; [done|]. split.
  { pose proof (uniq_of_length (combinations ps 4 ≫= partitions)).
    pose proof (candidates_length_le ps). lia. }
  assert (Hel' : ∀ m, m ∈ dict_values (uniq_of (combinations ps 4 ≫= partitions))
                      ↔ ∃ c, c ∈ combinations ps 4 ∧ m ∈ partitions c).
  { intros m. rewrite Hel, list_elem_of_bind. naive_solver. }
  split; [done|].
  intros m (c & Hc & Hm)%Hel'.
  apply combinations_length in Hc.
  destruct c as [|p0 [|p1 [|p2 [|p3 [|]]]]]; simpl in Hc; try lia.
  destruct (all_team_partitions_of_four_ok [p0; p1; p2; p3]) as [];
    [simpl; lia|].
  unfold partitions in Hm.
  destruct (partitions_loop_spec
              [((p0, p1), (p2, p3)); ((p0, p2), (p1, p3));
               ((p0, p3), (p1, p2))] ∅ []) as [_ Hpl].
  { intros x. rewrite elem_of_nil. set_solver. }
  { apply NoDup_nil_2. }
  simpl in Hm. apply Hpl in Hm as [Hm|Hm]; [by apply elem_of_nil in Hm|].
  apply list_elem_of_fmap in Hm as ([t1 t2] & -> & _).
  apply canonical_normalize_match.
Qed.

(** ** The match count, for any number of participants *)

Lemma base_spec (n : Z) :
  1 ≤ n → ∃ g c, 0 < g ∧ n = base n * g ∧ 4 = g * c ∧ 1 ≤ base n.
Proof.
  intros Hn. unfold base.
  destruct (Z.gcd_divide_l n 4) as [b Hb].
  destruct (Z.gcd_divide_r n 4) as [c Hc].
  pose proof (Z.gcd_nonneg n 4) as Hg.
  assert (Hg0 : Z.gcd n 4 ≠ 0) by (intros E; rewrite E in Hc; lia).
  exists (Z.gcd n 4), c.
  assert (E : n `div` Z.gcd n 4 = b).
  { rewrite Hb at 1. by apply Z.div_mul. }
  rewrite E. split; [lia|]. split; [lia|]. split; [lia|]. nia.
Qed.

(** X8. For every number of participants [n >= 1] with
    [n * (n - 1) < 2^53] (not only 4 to 8) the chosen M makes 4M divisible
    by n, as the comment above [choose_match_count] asks. When no perfect
    schedule exists, M is a multiple of [base], is at least [base] and
    [min_for_teammates], and is the first such multiple: it is less than
    one [base] above the larger of the two. The bound is where the two
    true divisions behind [min_for_teammates] are exact in binary64:
    [n * (n - 1)] and its half are integers below 2^53, and a quarter of
    it is a multiple of 1/2 below 2^52; beyond the bound the program
    rounds and [min_for_teammates] no longer describes it. *)
Theorem choose_match_count_divisible (n : Z) :
  1 ≤ n → n * (n - 1) < 2 ^ 53 →
  (4 * (choose_match_count n).1) `mod` n = 0 ∧
  ((choose_match_count n).2 = true →
   4 * (choose_match_count n).1 = n * (n - 1)) ∧
  ((choose_match_count n).2 = false →
   (base n | (choose_match_count n).1) ∧
   Z.max (base n) (min_for_teammates n) ≤ (choose_match_count n).1 ∧
   (choose_match_count n).1
     < Z.max (base n) (min_for_teammates n) + base n).
Proof.
  intros Hn _. destruct (base_spec n Hn) as (g & c & Hg & Hng & H4 & Hb).
  unfold choose_match_count, perfect_possible.
  case_bool_decide as Hp; cbn [fst snd].
  - apply Z.mod_divide in Hp; [|lia]. destruct Hp as [q Hq].
    assert (E : (n * (n - 1)) `div` 4 = q) by (rewrite Hq; by apply Z.div_mul).
    rewrite E. split; [|split; [lia|done]].
    replace (4 * q) with ((n - 1) * n) by lia. apply Z.mod_mul. lia.
  - set (M0 := Z.max (base n) (min_for_teammates n)).
    assert (HM : ∃ k, (if bool_decide (M0 `mod` base n ≠ 0)
                       then M0 + (base n - M0 `mod` base n) else M0)
                      = k * base n ∧ M0 ≤ k * base n < M0 + base n).
    { pose proof (Z.div_mod M0 (base n)) as Hdm.
      pose proof (Z.mod_pos_bound M0 (base n)) as Hmb.
      case_bool_decide as Hm.
      - exists (M0 `div` base n + 1). lia.
      - exists (M0 `div` base n). lia. }
    destruct HM as (k & -> & Hk). split; [|split; [done|]].
    + replace (4 * (k * base n)) with (c * k * n) by nia.
      apply Z.mod_mul. lia.
    + intros _. split; [by exists k|lia].
Qed.

Lemma choose_match_count_divisible_witness :
  (4 * (choose_match_count 10).1) `mod` 10 = 0 ∧
  choose_match_count 10 = (25, false).
Proof.
  assert (H10 : 1 ≤ 10) by lia.
  assert (Hex : 10 * (10 - 1) < 2 ^ 53) by reflexivity.
  split; [exact (proj1 (choose_match_count_divisible 10 H10 Hex))
         | reflexivity].
Defined.

(** X9. [perfect_possible n] holds exactly when [n] leaves remainder 0 or 1
    on division by 4. *)
Theorem perfect_possible_mod_4 (n : Z) :
  perfect_possible n = true ↔ n `mod` 4 = 0 ∨ n `mod` 4 = 1.
Proof.
  unfold perfect_possible. rewrite bool_decide_eq_true.
  pose proof (Z.div_mod n 4) as Hdm.
  pose proof (Z.mod_pos_bound n 4) as Hmb.
  set (q := n `div` 4) in *. set (r := n `mod` 4) in *.
  assert (Hr : r = 0 ∨ r = 1 ∨ r = 2 ∨ r = 3) by lia.
  assert (E : n * (n - 1)
              = r * (r - 1) + (4 * q * q + 2 * q * r - q) * 4) by nia.
  rewrite E, Z.mod_add by lia.
  destruct Hr as [-> | [-> | [-> | ->]]]; simpl; split; (lia || auto).
  all: intros H; vm_compute in H; (discriminate || lia).
Qed.

(** ** Sign and composition of the score *)

Lemma Qadd_nonneg (x y : Q) : (0 <= x → 0 <= y → 0 <= x + y)%Q.
Proof.
  intros Hx Hy. rewrite <- (Qplus_0_r 0). by apply Qplus_le_compat.
Qed.

Lemma Qsquare_nonneg (x : Q) : (0 <= x ^ 2)%Q.
Proof.
  change (x ^ 2)%Q with (x * x)%Q. unfold Qle, Qmult. simpl. nia.
Qed.

Lemma inject_Z_nonneg (z : Z) : 0 ≤ z → (0 <= inject_Z z)%Q.
Proof. intros Hz. change 0%Q with (inject_Z 0). by rewrite <- Zle_Qle. Qed.

Lemma Qsum_nonneg (l : list Q) : Forall (λ x, 0 <= x)%Q l → (0 <= Qsum l)%Q.
Proof.
  induction 1 as [|x l Hx _ IH]; simpl; [apply Qle_refl|]. by apply Qadd_nonneg.
Qed.

Lemma Zsum_nonneg {A : Type} (f : A → Z) (l : list A) :
  (∀ x, 0 ≤ f x) → 0 ≤ Zsum (map f l).
Proof.
  intros Hf. induction l as [|x l IH]; simpl; [done|].
  specialize (Hf x). lia.
Qed.

Lemma streak_cost_nonneg (L : nat) : 0 ≤ Spec.streak_cost L.
Proof. induction L as [|L IH]; simpl; lia. Qed.

Lemma play_variance_nonneg (sch : list Match) (ps : list Player) :
  (0 <= Spec.play_variance sch ps)%Q.
Proof.
  unfold Spec.play_variance. cbv zeta. unfold Qdiv.
  apply Qmult_le_0_compat.
  - apply Qsum_nonneg, Forall_forall. intros x Hx.
    apply list_elem_of_In, in_map_iff in Hx as (v & <- & _).
    apply Qsquare_nonneg.
  - apply Qinv_le_0_compat, inject_Z_nonneg. lia.
Qed.


(** X10. For every schedule and every non-empty roster of pairwise-distinct
    names the score is non-negative. *)
Theorem score_schedule_nonneg (sch : list Match) (ps : list Player)
    (pm : bool) :
  NoDup ps → ps ≠ [] →
  ∃ s, score_schedule module_config sch ps pm = Ok s ∧ (0 <= s)%Q.
Proof.
  intros Hnd Hne.
  destruct (score_schedule_refines_spec module_config sch ps pm Hnd Hne)
    as (s & Hs & Heq).
  exists s. split; [done|]. rewrite Heq.
  cbn [module_config W_PLAY_BALANCE W_TEAMMATE_MISSING W_TEAMMATE_REPEAT
       W_OPP_REPEAT W_CONSEC_REST W_PERFECT_DEVIATION].
  repeat apply Qadd_nonneg.
  - apply Qmult_le_0_compat; [done|apply play_variance_nonneg].
  - apply Qmult_le_0_compat; [done|]. apply inject_Z_nonneg. nia.
  - apply Qmult_le_0_compat; [done|]. apply inject_Z_nonneg.
    apply Zsum_nonneg. lia.
  - apply Qmult_le_0_compat; [done|]. apply inject_Z_nonneg.
    apply Zsum_nonneg. lia.
  - apply Qmult_le_0_compat; [done|]. apply inject_Z_nonneg.
    apply Zsum_nonneg. intros p. apply Zsum_nonneg, streak_cost_nonneg.
  - destruct pm; [|done]. apply Qmult_le_0_compat; [done|].
    apply inject_Z_nonneg. apply Zsum_nonneg. lia.
Qed.

Lemma score_schedule_nonneg_witness :
  ∃ s, score_schedule module_config [mkMatch ("A", "B") ("C", "D")]
         ["A"; "B"; "C"; "D"; "E"] true = Ok s ∧ (0 <= s)%Q.
Proof.
  apply score_schedule_nonneg; [|discriminate].
  apply (bool_decide_unpack _). vm_compute. reflexivity.
Defined.



(** ** Opponent repeats in closed form *)

Lemma Zsum_map_cons {A : Type} (f : A → Z) (x : A) (l : list A) :
  Zsum (map f (x :: l)) = f x + Zsum (map f l).
Proof. reflexivity. Qed.

Section occ_sum.
Context `{Countable K}.

Lemma indicator_sum_notin (x : K) (l : list K) :
  x ∉ l → Zsum (map (λ k, if decide (k = x) then 1 else 0) l) = 0.
Proof.
  intros Hx. apply Zsum_zero. intros k Hk.
  rewrite decide_False; [done|]. by intros ->.
Qed.

Lemma indicator_sum_in (x : K) (l : list K) :
  NoDup l → x ∈ l → Zsum (map (λ k, if decide (k = x) then 1 else 0) l) = 1.
Proof.
  induction 1 as [|y l Hy Hnd IH]; [by intros ?%elem_of_nil|].
  intros Hx. rewrite Zsum_map_cons. cbv beta.
  destruct (decide (y = x)) as [->|Hne].
  - rewrite (indicator_sum_notin x l Hy). lia.
  - apply elem_of_cons in Hx as [->|Hx]; [done|]. rewrite IH by done. lia.
Qed.

(** Summed over the distinct keys, the occurrences give the length. *)
Lemma occ_sum (L : list K) :
  Zsum (map (λ k, occ k L) (remove_dups L)) = Z.of_nat (length L).
Proof.
  induction L as [|x L IH]; [done|].
  assert (Hsplit : ∀ l : list K,
    Zsum (map (λ k, occ k (x :: L)) l)
    = Zsum (map (λ k, if decide (k = x) then 1 else 0) l)
      + Zsum (map (λ k, occ k L) l)).
  { intros l. rewrite Zsum_map_add. apply Zsum_map_ext.
    intros k _. by rewrite occ_cons. }
  cbn [remove_dups]. destruct (decide_rel elem_of x L) as [Hx|Hx].
  - rewrite Hsplit, IH.
    rewrite indicator_sum_in;
      [|apply NoDup_remove_dups|by apply elem_of_remove_dups].
    simpl length. lia.
  - rewrite Zsum_map_cons, Hsplit, IH.
    rewrite indicator_sum_notin by (by rewrite elem_of_remove_dups).
    rewrite occ_cons, decide_True by done.
    assert (occ x L = 0).
    { destruct (decide (0 < occ x L)) as [Hp|Hp];
        [by apply occ_pos in Hp|unfold occ in *; lia]. }
    simpl length. lia.
Qed.

Lemma count_map_repeats (L : list K) :
  Zsum (map (λ c, Z.max 0 (c - 1)) (values (foldl incr (∅ : gmap K Z) L)))
  = Z.of_nat (length L)
    - Z.of_nat (length (values (foldl incr (∅ : gmap K Z) L))).
Proof.
  rewrite (count_map_values (λ c, Z.max 0 (c - 1))).
  assert (Hlen : length (values (foldl incr (∅ : gmap K Z) L))
                 = length (remove_dups L)).
  { unfold values. rewrite length_fmap, (count_map_items L).
    by rewrite length_fmap. }
  rewrite Hlen, <- (occ_sum L).
  rewrite (Zsum_map_ext _ (λ k, occ k L + -1) (remove_dups L)).
  - rewrite <- Zsum_map_add.
    assert (E : ∀ l : list K, Zsum (map (λ _, -1) l) = - Z.of_nat (length l)).
    { induction l as [|y l IHl]; simpl; [done|]. unfold Zsum in *. lia. }
    rewrite E. lia.
  - intros k Hk. rewrite elem_of_remove_dups in Hk.
    apply occ_pos in Hk. lia.
Qed.
End occ_sum.

Lemma opp_keys_length (sch : list Match) :
  length (sch ≫= opp_keys) = (4 * length sch)%nat.
Proof.
  induction sch as [|m sch IH]; [done|].
  rewrite bind_cons, length_app, IH. simpl. lia.
Qed.

(** X12. The opponent repeats that [score_schedule] sums over
    [opp_counts.values()] are the number of opponent pairings of the
    schedule, four per match, less the number of different opponent pairs
    that occur, whatever the schedule and the roster. *)
Theorem opp_repeats_closed_form (ps : list Player) (sch : list Match) :
  let st := foldl (match_step ps) (score_init ps) sch in
  Zsum (map (λ c, Z.max 0 (c - 1)) (values (opp_counts st)))
  = 4 * Z.of_nat (length sch) - Z.of_nat (length (values (opp_counts st))).
Proof.
  cbv zeta.
  destruct (match_loop_counts ps sch (score_init ps)) as [_ ->].
  cbn [score_init opp_counts].
  rewrite count_map_repeats, opp_keys_length. lia.
Qed.

(** ** Who rests *)

(** X13. For a roster of pairwise-distinct names and a match played by four
    pairwise-distinct members of it, [Match.resting] lists, in roster
    order and without repetition, exactly the roster members that are not
    in the match: there are [N - 4] of them, and none when the roster has
    four names. *)
Theorem resting_length (m : Match) (ps : list Player) :
  NoDup ps → NoDup (players_of m) → players_of m ⊆ ps →
  (length (resting m ps) + 4 = length ps)%nat ∧
  resting m ps `sublist_of` ps ∧
  NoDup (resting m ps) ∧
  ∀ p, p ∈ ps → (p ∈ resting m ps ↔ p ∉ players_of m).
Proof.
  intros Hps Hm Hsub. unfold resting. split_and!.
  - pose proof (filter_app_complement (λ p, p ∈ players_of m) ps) as Hperm.
    apply Permutation_length in Hperm. rewrite length_app in Hperm.
    assert (Hin : filter (λ p, p ∈ players_of m) ps ≡ₚ players_of m).
    { apply NoDup_Permutation; [by apply NoDup_filter|done|].
      intros p. rewrite list_elem_of_filter. split; [tauto|].
      intros Hp. split; [done|by apply Hsub]. }
    apply Permutation_length in Hin. simpl in Hin. lia.
  - apply sublist_filter.
  - by apply NoDup_filter.
  - intros p Hp. rewrite list_elem_of_filter. tauto.
Qed.

Lemma resting_length_witness :
  resting (mkMatch ("A", "C") ("B", "E")) ["A"; "B"; "C"; "D"; "E"; "F"]
  = ["D"; "F"] ∧
  (length (resting (mkMatch ("A", "C") ("B", "E"))
             ["A"; "B"; "C"; "D"; "E"; "F"]) + 4 = 6)%nat.
Proof.
  split; [vm_compute; reflexivity|].
  apply (resting_length (mkMatch ("A", "C") ("B", "E"))
           ["A"; "B"; "C"; "D"; "E"; "F"]).
  - apply (bool_decide_unpack _). vm_compute. reflexivity.
  - apply (bool_decide_unpack _). vm_compute. reflexivity.
  - apply (bool_decide_unpack _). vm_compute. reflexivity.
Defined.

(** ** Keys and canonical forms *)

(** X14. [pair_key] names unordered pairs: it does not depend on the order
    of its arguments, returns its two arguments in one order or the other
    with the smaller first, and two pairs get the same key exactly when
    they are the same unordered pair. *)
Theorem pair_key_unordered (x y p q : Player) :
  pair_key x y = pair_key y x ∧
  (pair_key x y = (x, y) ∨ pair_key x y = (y, x)) ∧
  str_lt (pair_key x y).2 (pair_key x y).1 = false ∧
  (pair_key x y = pair_key p q ↔ (x = p ∧ y = q) ∨ (x = q ∧ y = p)).
Proof.
  split; [apply pair_key_comm|]. split; [apply pair_key_cases|]. split.
  - unfold pair_key. destruct (str_lt x y) eqn:E; simpl; [|done].
    by apply str_lt_asym.
  - rewrite pair_key_eq_iff. unfold Spec.is_pair. simpl.
    split; [intros [[= -> ->]|[= -> ->]]; auto|].
    intros [[-> ->]|[-> ->]]; auto.
Qed.

(** X15. Canonicalisation is idempotent: normalising the two teams of a
    canonical match gives the same match again; in a canonical match each
    team has its smaller name first and the second team is not smaller
    than the first. *)
Theorem normalize_match_idempotent (t1 t2 : Team) :
  let m := normalize_match t1 t2 in
  normalize_match (a m) (b m) = m ∧
  normalize_team (a m) = a m ∧ normalize_team (b m) = b m ∧
  str_lt (a m).2 (a m).1 = false ∧ str_lt (b m).2 (b m).1 = false ∧
  team_lt (b m) (a m) = false.
Proof.
  cbv zeta. split; [apply canonical_normalize_match|].
  pose proof (normalize_match_teams t1 t2) as Hteams. cbv zeta in Hteams.
  assert (Hsorted : ∀ t : Team,
            str_lt (normalize_team t).2 (normalize_team t).1 = false).
  { intros [x y]. unfold normalize_team. simpl.
    destruct (str_lt y x) eqn:E; simpl; [by apply str_lt_asym|done]. }
  pose proof (normalize_match_ordered t1 t2) as Hord.
  destruct Hteams as [[Ha Hb]|[Ha Hb]]; rewrite Ha, Hb in *;
    rewrite !normalize_team_idemp, !Hsorted; by repeat split.
Qed.

(** ** The guard of [main] *)

(** X16. [main] stops with [SystemExit] exactly when the number of names is
    outside 4..8; otherwise [build_schedule] returns and the schedule has
    the chosen number of matches. No exception of the engine
    (the ones of a short roster included) can be reached through [main]. *)
Theorem main_plan_guarded `{Random} (ps : list Player) :
  ((length ps < 4 ∨ 8 < length ps)%nat ∧
   main_plan module_config ps
   = SystemExit "Du må ha mellom 4 og 8 spillere.") ∨
  ((4 ≤ length ps ≤ 8)%nat ∧
   ∃ sched M_ pm,
     main_plan module_config ps = Planned sched M_ pm ∧
     choose_match_count (Z.of_nat (length ps)) = (M_, pm) ∧
     Z.of_nat (length sched) = M_).
Proof.
  unfold main_plan.
  destruct (decide (length ps < 4 ∨ 8 < length ps)%nat) as [Hout|Hin].
  - left. split; [lia|done].
  - right. assert (Hlo : (4 ≤ length ps)%nat) by lia.
    assert (Hhi : (length ps ≤ 8)%nat) by lia. split; [lia|].
    destruct (generate_candidate_matches_nonempty ps Hlo)
      as (cands & Hg & Hne).
    destruct (generate_candidate_matches_le ps Hhi) as (cands' & Hg' & Hle).
    assert (cands' = cands) as -> by congruence.
    destruct (choose_match_count (Z.of_nat (length ps))) as [M_ pm] eqn:HM.
    assert (HMpos : 0 < M_).
    { assert (Hr : 4 ≤ Z.of_nat (length ps) ≤ 8) by lia.
      destruct (small_range _ Hr) as [E | [E | [E | [E | E]]]];
        rewrite E in HM; vm_compute in HM; injection HM as <- <-; lia. }
    assert (Hps : ps ≠ []) by (intros ->; simpl in Hlo; lia).
    destruct (build_schedule_ok module_config ps cands M_ pm Hg Hne Hps)
      as (sched & s & Hb & Hlen & _ & _); try done.
    + etrans; [exact Hle|]. apply Nat.leb_le. vm_compute. reflexivity.
    + apply Nat.leb_le. vm_compute. reflexivity.
    + rewrite Hb. exists sched, M_, pm. split; [done|]. split; [done|]. lia.
Qed.

(** ** When the rest-streak penalty vanishes *)

Lemma pen_from_nonneg (p : Player) (sch : list Match) (r : Z) :
  0 ≤ r → 0 ≤ pen_from p sch r.
Proof.
  revert r. induction sch as [|m sch IH]; intros r Hr; simpl; [done|].
  destruct (decide (p ∈ players_of m)); [by apply IH|].
  pose proof (IH (r + 1)). case_decide; lia.
Qed.

Lemma pen_from_zero_iff (p : Player) (sch : list Match) (r : Z) :
  0 ≤ r →
  pen_from p sch r = 0 ↔
  ¬ rests_twice p sch ∧
  (1 ≤ r → match sch with m :: _ => p ∈ players_of m | [] => True end).
Proof.
  revert r. induction sch as [|m sch IH]; intros r Hr.
  - simpl. tauto.
  - cbn [pen_from rests_twice].
    destruct (decide (p ∈ players_of m)) as [Hm|Hm].
    + rewrite (IH 0) by lia. destruct sch as [|m2 sch]; [simpl; tauto|].
      split; intros [Hn _]; (split; [tauto | intros; first [done | lia]]).
    + pose proof (pen_from_nonneg p sch (r + 1)) as Hnn.
      specialize (IH (r + 1)).
      destruct sch as [|m2 sch].
      * simpl. case_decide as H2.
        -- split; [intros; exfalso; lia|].
           intros [_ Hx]. exfalso. apply Hm, Hx. lia.
        -- split; [intros _; split; [tauto | intros; lia] | intros _; lia].
      * split.
        -- intros H0. assert (r = 0) as -> by (case_decide; lia).
           rewrite decide_False in H0 by lia.
           apply IH in H0 as [Hn Hhd]; [|lia].
           split; [|lia]. specialize (Hhd ltac:(lia)). tauto.
        -- intros [Hn Hr1].
           assert (r = 0) as -> by (destruct (decide (1 ≤ r)); [tauto|lia]).
           rewrite decide_False by lia.
           rewrite (proj2 (IH ltac:(lia))); [lia|].
           split; [tauto|]. intros _.
           destruct (decide (p ∈ players_of m2)); [done|tauto].
Qed.

Lemma Zsum_zero_iff {A : Type} (f : A → Z) (l : list A) :
  (∀ x, 0 ≤ f x) → Zsum (map f l) = 0 ↔ ∀ x, x ∈ l → f x = 0.
Proof.
  intros Hf. induction l as [|x l IH].
  - simpl. split; [by intros _ x ?%elem_of_nil|done].
  - rewrite Zsum_map_cons. pose proof (Zsum_nonneg f l Hf). pose proof (Hf x).
    split.
    + intros Hz y [->|Hy]%elem_of_cons; [lia|]. apply IH; [lia|done].
    + intros Hall. rewrite (Hall x) by left.
      rewrite (proj2 IH); [lia|]. intros y Hy. apply Hall. by right.
Qed.

(** X17. For a roster of pairwise-distinct names, the rest-streak penalty
    that [score_schedule] accumulates is never negative, and it is zero
    exactly when no participant of the roster is absent from two
    consecutive matches of the schedule. *)
Theorem rest_streak_pen_zero_iff (ps : list Player) (sch : list Match) :
  NoDup ps →
  let st := foldl (match_step ps) (score_init ps) sch in
  0 ≤ rest_streak_pen st ∧
  (rest_streak_pen st = 0 ↔ ∀ p, p ∈ ps → ¬ rests_twice p sch).
Proof.
  intros Hnd. cbv zeta.
  destruct (match_loop_players ps sch (score_init ps) Hnd)
    as (_ & _ & _ & Hpen).
  cbv zeta in Hpen. cbn [score_init rest_streak rest_streak_pen] in Hpen.
  rewrite Hpen, Z.add_0_l.
  rewrite (Zsum_map_ext _ (λ p, pen_from p sch 0) ps)
    by (intros p Hp; by rewrite zero_dict_total).
  split.
  - apply Zsum_nonneg. intros p. by apply pen_from_nonneg.
  - rewrite Zsum_zero_iff by (intros p; by apply pen_from_nonneg).
    split; intros Hall p Hp; specialize (Hall p Hp).
    + apply pen_from_zero_iff in Hall; [tauto|done].
    + apply pen_from_zero_iff; [done|]. split; [done|lia].
Qed.

Lemma rest_streak_pen_zero_iff_witness :
  rest_streak_pen
    (foldl (match_step ["A"; "B"; "C"; "D"; "E"])
           (score_init ["A"; "B"; "C"; "D"; "E"])
           [mkMatch ("A", "B") ("C", "D"); mkMatch ("A", "B") ("C", "E");
            mkMatch ("A", "D") ("B", "C")]) = 0
  ↔ ∀ p, p ∈ ["A"; "B"; "C"; "D"; "E"] →
         ¬ rests_twice p
             [mkMatch ("A", "B") ("C", "D"); mkMatch ("A", "B") ("C", "E");
              mkMatch ("A", "D") ("B", "C")].
Proof.
  apply (rest_streak_pen_zero_iff ["A"; "B"; "C"; "D"; "E"]).
  apply (bool_decide_unpack _). vm_compute. reflexivity.
Defined.

(** ** The diagnostic report *)

Lemma count_plays_ok (d : gmap Player Z) (L : list Player) :
  (∀ p, p ∈ L → is_Some (d !! p)) →
  ∃ d', count_plays d L = inl d' ∧
        ∀ q, d' !! q = (λ c, c + occ q L) <$> (d !! q).
Proof.
  revert d. induction L as [|p L IH]; intros d Hd.
  - exists d. split; [done|]. intros q. unfold occ. simpl.
    destruct (d !! q); simpl; [f_equal; lia|done].
  - destruct (Hd p ltac:(left)) as [c Hc]. cbn [count_plays]. rewrite Hc.
    destruct (IH (<[p := c + 1]> d)) as (d' & -> & Hd').
    { intros q Hq. apply lookup_insert_is_Some.
      destruct (decide (p = q)); [by left|right]. split; [done|].
      apply Hd. by right. }
    exists d'. split; [done|]. intros q. rewrite Hd', occ_cons.
    destruct (decide (q = p)) as [->|Hne].
    + rewrite lookup_insert_eq, Hc. simpl. f_equal. lia.
    + rewrite lookup_insert_ne by done.
      destruct (d !! q); simpl; [f_equal; lia|done].
Qed.

Lemma count_plays_dom (d d' : gmap Player Z) (L : list Player) :
  count_plays d L = inl d' → ∀ q, is_Some (d' !! q) ↔ is_Some (d !! q).
Proof.
  revert d. induction L as [|p L IH]; intros d E q; cbn [count_plays] in E.
  - by injection E as ->.
  - destruct (d !! p) as [c|] eqn:Hc; [|done].
    rewrite (IH _ E), lookup_insert_is_Some.
    split; [intros [<-|[_ ?]]; [by eexists|done]|].
    intros Hq. destruct (decide (p = q)); [by left|by right].
Qed.

Lemma count_plays_err (d : gmap Player Z) (L : list Player) (p : Player) :
  count_plays d L = inr p → p ∈ L ∧ d !! p = None.
Proof.
  revert d. induction L as [|x L IH]; intros d E; cbn [count_plays] in E;
    [done|].
  destruct (d !! x) as [c|] eqn:Hc.
  - destruct (IH _ E) as [Hin Hnone]. split; [by right|].
    destruct (decide (x = p)) as [->|Hne].
    + by rewrite lookup_insert_eq in Hnone.
    + by rewrite lookup_insert_ne in Hnone.
  - injection E as ->. split; [left|done].
Qed.

Lemma report_loop_ok (d : gmap Player Z) (tc : gmap (Player * Player) Z)
    (sch : list Match) :
  (∀ m p, m ∈ sch → p ∈ players_of m → is_Some (d !! p)) →
  ∃ d', report_loop d tc sch = inl (d', foldl incr tc (sch ≫= team_keys)) ∧
        ∀ q, d' !! q = (λ c, c + occ q (sch ≫= players_of)) <$> (d !! q).
Proof.
  revert d tc. induction sch as [|m sch IH]; intros d tc Hd.
  - exists d. split; [done|]. intros q. unfold occ. simpl.
    destruct (d !! q); simpl; [f_equal; lia|done].
  - destruct (count_plays_ok d (players_of m)) as (d1 & E1 & Hd1).
    { intros p Hp. apply (Hd m p); [left|done]. }
    cbn [report_loop]. rewrite E1.
    destruct (IH d1 (foldl incr tc (team_keys m))) as (d' & E & Hd').
    { intros m' p Hm' Hp. apply (count_plays_dom _ _ _ E1).
      apply (Hd m' p); [by right|done]. }
    exists d'. rewrite bind_cons, foldl_app. split; [done|].
    intros q. rewrite Hd', Hd1, bind_cons, occ_app.
    destruct (d !! q); simpl; [f_equal; lia|done].
Qed.

Lemma report_loop_err (d : gmap Player Z) (tc : gmap (Player * Player) Z)
    (sch : list Match) (p : Player) :
  report_loop d tc sch = inr p →
  d !! p = None ∧ ∃ m, m ∈ sch ∧ p ∈ players_of m.
Proof.
  revert d tc. induction sch as [|m sch IH]; intros d tc E;
    cbn [report_loop] in E; [done|].
  destruct (count_plays d (players_of m)) as [d1|x] eqn:E1.
  - destruct (IH _ _ E) as (Hnone & m' & Hm' & Hp). split.
    + destruct (d !! p) eqn:Hdp; [|done].
      assert (is_Some (d1 !! p)) as [? Hs]
        by (apply (count_plays_dom _ _ _ E1); by eexists).
      congruence.
    + exists m'. split; [by right|done].
  - injection E as ->. destruct (count_plays_err _ _ _ E1) as [Hin Hnone].
    split; [done|]. exists m. split; [left|done].
Qed.

Lemma pair_step_totals (tc : gmap (Player * Player) Z) (pm : bool)
    (L : list (Player * Player)) (mi de re : Z) :
  (foldl (pair_step tc pm) (mi, de, re) L).1.1
  = mi + Z.of_nat (length (filter (λ pk, default 0 (tc !! pk) = 0) L)) ∧
  (foldl (pair_step tc pm) (mi, de, re) L).2
  = re + Zsum (map (λ pk, Z.max 0 (default 0 (tc !! pk) - 1)) L).
Proof.
  revert mi de re. induction L as [|pk L IH]; intros mi de re.
  - simpl. lia.
  - cbn [foldl]. unfold pair_step at 2 4. cbv zeta.
    rewrite filter_cons, Zsum_map_cons.
    destruct (IH (if decide (default 0 (tc !! pk) = 0) then mi + 1 else mi)
                 (if pm then de + Z.abs (default 0 (tc !! pk) - 1) else de)
                 (re + Z.max 0 (default 0 (tc !! pk) - 1))) as [-> ->].
    case_decide; simpl; lia.
Qed.

Lemma occ_NoDup (L : list Player) (q : Player) :
  NoDup L → occ q L = if decide (q ∈ L) then 1 else 0.
Proof.
  induction 1 as [|x L Hx _ IH]; [done|].
  rewrite occ_cons, IH.
  destruct (decide (q = x)) as [->|Hne].
  - rewrite (decide_False (P := x ∈ L)) by done.
    rewrite decide_True by left. done.
  - destruct (decide (q ∈ L)) as [Hq|Hq].
    + rewrite decide_True by (by right). done.
    + rewrite decide_False; [done|]. rewrite elem_of_cons. naive_solver.
Qed.

Lemma occ_players_play_count (sch : list Match) (q : Player) :
  (∀ m, m ∈ sch → NoDup (players_of m)) →
  occ q (sch ≫= players_of) = Spec.play_count sch q.
Proof.
  induction sch as [|m sch IH]; intros Hnd; [done|].
  rewrite bind_cons, occ_app, play_count_cons, IH
    by (intros m' Hm'; apply Hnd; by right).
  rewrite occ_NoDup by (apply Hnd; left). done.
Qed.

(** X18. [report] raises [KeyError] exactly when some match of the
    schedule has a player who is not in the roster, and the name it
    raises with is such a player; [score_schedule], which loops over the
    roster instead, has no such failure. *)
Theorem report_key_error (sch : list Match) (ps : list Player) (pm : bool) :
  (∀ p, report sch ps pm = KeyError p →
        p ∉ ps ∧ ∃ m, m ∈ sch ∧ p ∈ players_of m) ∧
  ((∃ m p, m ∈ sch ∧ p ∈ players_of m ∧ p ∉ ps) →
   ∃ p, report sch ps pm = KeyError p) ∧
  (ps ≠ [] → ∃ s, score_schedule module_config sch ps pm = Ok s).
Proof.
  split_and!.
  - intros p E. unfold report in E.
    destruct (report_loop _ _ _) as [[d tc]|x] eqn:El; [done|].
    injection E as ->. destruct (report_loop_err _ _ _ _ El) as [Hnone Hm].
    split; [|done]. intros Hin.
    by rewrite zero_dict_lookup, decide_True in Hnone.
  - intros (m & p & Hm & Hp & Hnot). unfold report.
    destruct (report_loop _ _ _) as [[d tc]|x] eqn:El; [|by eexists].
    exfalso.
    assert (Hall : ∀ sch' d0 tc0 d1 tc1,
      report_loop d0 tc0 sch' = inl (d1, tc1) →
      ∀ m' q, m' ∈ sch' → q ∈ players_of m' → is_Some (d0 !! q)).
    { clear. induction sch' as [|m0 sch' IH]; intros d0 tc0 d1 tc1 E m' q Hm' Hq.
      - by apply elem_of_nil in Hm'.
      - cbn [report_loop] in E.
        destruct (count_plays d0 (players_of m0)) as [d2|x] eqn:E2; [|done].
        apply elem_of_cons in Hm' as [->|Hm'].
        + destruct (d0 !! q) eqn:Hq0; [by eexists|]. exfalso.
          assert (Hno : ∀ L d3 d4, count_plays d3 L = inl d4 →
                                   q ∈ L → is_Some (d3 !! q)).
          { clear. induction L as [|y L IHL]; intros d3 d4 E Hq.
            - by apply elem_of_nil in Hq.
            - cbn [count_plays] in E.
              destruct (d3 !! y) as [c|] eqn:Hy; [|done].
              apply elem_of_cons in Hq as [->|Hq]; [by eexists|].
              specialize (IHL _ _ E Hq).
              apply lookup_insert_is_Some in IHL as [<-|[_ ?]];
                [by eexists|done]. }
          destruct (Hno _ _ _ E2 Hq) as [? ?]. congruence.
        + apply (count_plays_dom _ _ _ E2). by eapply IH. }
    destruct (Hall _ _ _ _ _ El m p Hm Hp) as [c Hc].
    rewrite zero_dict_lookup in Hc. by rewrite decide_False in Hc.
  - apply score_schedule_ok.
Qed.

(** X19. When every player of every match is in the roster, [report]
    prints, and its coverage and repeat numbers are the [missing] and
    [repeats] that [score_schedule] computes for the same schedule; for a
    roster of distinct names and matches of distinct players its play
    counts are the scorer's [plays] as well. *)
Theorem report_agrees_with_score (sch : list Match) (ps : list Player)
    (pm : bool) :
  (∀ m, m ∈ sch → players_of m ⊆ ps) →
  let st := foldl (match_step ps) (score_init ps) sch in
  let acc := foldl (pair_step (teammate_counts st) pm) (0, 0, 0)
                   (all_pairs ps) in
  ∃ counts,
    report sch ps pm
    = Printed counts (Z.of_nat (length (all_pairs ps)) - acc.1.1)
              (Z.of_nat (length (all_pairs ps))) acc.2 pm ∧
    (∀ q, counts !! q
          = if decide (q ∈ ps) then Some (occ q (sch ≫= players_of))
            else None) ∧
    (NoDup ps → (∀ m, m ∈ sch → NoDup (players_of m)) →
     counts = plays st).
Proof.
  intros Hsub. cbv zeta.
  destruct (report_loop_ok (zero_dict ps) ∅ sch) as (d & El & Hd).
  { intros m p Hm Hp. rewrite zero_dict_lookup, decide_True; [by eexists|].
    by apply (Hsub m). }
  destruct (match_loop_counts ps sch (score_init ps)) as [Htc _].
  cbn [score_init teammate_counts] in Htc. rewrite Htc.
  destruct (pair_step_totals (foldl incr ∅ (sch ≫= team_keys)) pm
              (all_pairs ps) 0 0 0) as [-> ->].
  exists d. split_and!.
  - unfold report. rewrite El. cbv zeta. f_equal; lia.
  - intros q. rewrite Hd, zero_dict_lookup.
    destruct (decide (q ∈ ps)); simpl; [f_equal; lia|done].
  - intros Hnd Hm.
    destruct (match_loop_players ps sch (score_init ps) Hnd)
      as (Hpl & Hdom & _).
    cbv zeta in Hpl, Hdom. cbn [score_init plays] in Hpl, Hdom.
    apply map_eq. intros q. rewrite Hd, zero_dict_lookup.
    specialize (Hdom ltac:(intros q'; rewrite zero_dict_lookup;
                           destruct (decide (q' ∈ ps)); split;
                           intros; try done; try (by eexists);
                           by destruct H) q).
    destruct (decide (q ∈ ps)) as [Hq|Hq]; simpl.
    + destruct (proj2 Hdom Hq) as [x Hx]. rewrite Hx. f_equal.
      specialize (Hpl q Hq). rewrite lookup_total_alt, Hx in Hpl.
      simpl in Hpl. rewrite Hpl, zero_dict_total by done.
      rewrite occ_players_play_count by done. lia.
    + destruct (plays (foldl (match_step ps) (score_init ps) sch) !! q) eqn:Hx;
        [|done].
      exfalso. apply Hq, Hdom. by eexists.
Qed.

Lemma report_agrees_with_score_witness :
  ∃ counts,
    report [mkMatch ("A", "B") ("C", "D"); mkMatch ("A", "B") ("C", "E")]
           ["A"; "B"; "C"; "D"; "E"] false
    = Printed counts 3 10 1 false.
Proof.
  destruct (report_agrees_with_score
              [mkMatch ("A", "B") ("C", "D"); mkMatch ("A", "B") ("C", "E")]
              ["A"; "B"; "C"; "D"; "E"] false) as (counts & E & _).
  - apply Forall_forall. apply (bool_decide_unpack _). vm_compute. reflexivity.
  - exists counts. exact E.
Defined.

(** ** The report of the schedule that [build_schedule] returns *)

Lemma occ_sum_roster (ps L : list Player) :
  NoDup ps → L ⊆ ps →
  Zsum (map (λ k, occ k L) ps) = Z.of_nat (length L).
Proof.
  intros Hnd. induction L as [|x L IH]; intros Hsub.
  - apply Zsum_zero. intros k _. done.
  - rewrite (Zsum_map_ext _ (λ k, (if decide (k = x) then 1 else 0)
                                  + occ k L))
      by (intros k _; apply occ_cons).
    rewrite <- Zsum_map_add, indicator_sum_in, IH; [simpl length; lia| |done|].
    + intros y Hy. apply Hsub. by right.
    + apply Hsub. left.
Qed.

Lemma players_of_bind_length (sch : list Match) :
  length (sch ≫= players_of) = (4 * length sch)%nat.
Proof.
  induction sch as [|m sch IH]; [done|].
  rewrite bind_cons, length_app, IH. simpl. lia.
Qed.

Lemma build_schedule_valid `{Random} (ps : list Player) :
  NoDup ps → (4 ≤ length ps ≤ 8)%nat →
  ∃ sched M_ pm,
    build_schedule module_config ps = Ok (sched, M_, pm) ∧
    Z.of_nat (length sched) = M_ ∧
    ∀ m, m ∈ sched → NoDup (players_of m) ∧ players_of m ⊆ ps.
Proof.
  intros Hnd [Hlo Hhi].
  destruct (generate_candidate_matches_nonempty ps Hlo) as (cands & Hg & Hne).
  destruct (generate_candidate_matches_le ps Hhi) as (cands' & Hg' & Hle).
  assert (cands' = cands) as -> by congruence.
  destruct (choose_match_count (Z.of_nat (length ps))) as [M_ pm] eqn:HM.
  assert (HMpos : 0 < M_).
  { assert (Hr : 4 ≤ Z.of_nat (length ps) ≤ 8) by lia.
    destruct (small_range _ Hr) as [E | [E | [E | [E | E]]]];
      rewrite E in HM; vm_compute in HM; injection HM as <- <-; lia. }
  assert (Hps : ps ≠ []) by (intros ->; simpl in Hlo; lia).
  destruct (build_schedule_ok module_config ps cands M_ pm Hg Hne Hps)
    as (sched & s & Hb & Hlen & Hall & _); try done.
  - etrans; [exact Hle|]. apply Nat.leb_le. vm_compute. reflexivity.
  - apply Nat.leb_le. vm_compute. reflexivity.
  - exists sched, M_, pm. split; [done|]. split; [lia|].
    intros m Hm. rewrite Forall_forall in Hall. specialize (Hall m Hm).
    apply candidate_valid; [done|].
    rewrite generate_candidate_matches_bind in Hg. injection Hg as <-.
    by rewrite uniq_of_NoDup in Hall by by apply candidates_NoDup.
Qed.

(** X20. For four to eight distinct names, the [report] that [main] runs
    on the schedule of [build_schedule] never raises [KeyError]; the play
    counts it prints are the numbers of matches each participant is in,
    they add up to four times the number M of matches, and the coverage
    it prints lies between 0 and the number of pairs. *)
Theorem report_after_build_schedule `{Random} (ps : list Player) :
  NoDup ps → (4 ≤ length ps ≤ 8)%nat →
  ∃ sched M_ pm counts covered total repeats,
    build_schedule module_config ps = Ok (sched, M_, pm) ∧
    report sched ps pm = Printed counts covered total repeats pm ∧
    (∀ p, p ∈ ps → counts !! p = Some (Spec.play_count sched p)) ∧
    Zsum (map (λ p, default 0 (counts !! p)) ps) = 4 * M_ ∧
    0 ≤ covered ≤ total.
Proof.
  intros Hnd Hn.
  destruct (build_schedule_valid ps Hnd Hn) as (sched & M_ & pm & Hb & Hlen & Hv).
  destruct (report_loop_ok (zero_dict ps) ∅ sched) as (d & El & Hd).
  { intros m p Hm Hp. rewrite zero_dict_lookup, decide_True; [by eexists|].
    by apply (Hv m). }
  assert (Hcount : ∀ p, p ∈ ps → d !! p = Some (occ p (sched ≫= players_of))).
  { intros p Hp. rewrite Hd, zero_dict_lookup, decide_True by done.
    simpl; f_equal; lia. }
  eexists sched, M_, pm, d, _, _, _. split; [done|].
  split; [unfold report; rewrite El; cbv zeta; reflexivity|].
  split_and!.
  - intros p Hp. rewrite (Hcount p Hp). f_equal.
    apply occ_players_play_count. intros m Hm. by apply (Hv m).
  - rewrite (Zsum_map_ext _ (λ p, occ p (sched ≫= players_of)))
      by (intros p Hp; by rewrite (Hcount p Hp)).
    rewrite occ_sum_roster, players_of_bind_length; [lia|done|].
    intros p (m & Hp & Hm)%list_elem_of_bind. by apply (Hv m).
  - pose proof (length_filter
      (λ pk, default 0 (foldl incr ∅ (sched ≫= team_keys) !! pk) = 0)
      (all_pairs ps)). lia.
  - pose proof (length_filter
      (λ pk, default 0 (foldl incr ∅ (sched ≫= team_keys) !! pk) = 0)
      (all_pairs ps)). lia.
Qed.

Lemma report_after_build_schedule_witness :
  ∃ sched M_ pm counts covered total repeats,
    @build_schedule lcg module_config ["A"; "B"; "C"; "D"; "E"]
      = Ok (sched, M_, pm) ∧
    report sched ["A"; "B"; "C"; "D"; "E"] pm
      = Printed counts covered total repeats pm ∧
    Zsum (map (λ p, default 0 (counts !! p)) ["A"; "B"; "C"; "D"; "E"])
      = 4 * M_.
Proof.
  assert (Hnd : NoDup ["A"; "B"; "C"; "D"; "E"]).
  { apply (bool_decide_unpack _). vm_compute. reflexivity. }
  assert (Hn : (4 ≤ length ["A"; "B"; "C"; "D"; "E"] ≤ 8)%nat)
    by (simpl; lia).
  destruct (@report_after_build_schedule lcg _ Hnd Hn)
    as (sched & M_ & pm & counts & covered & total & repeats
        & Hb & Hr & _ & Hsum & _).
  exists sched, M_, pm, counts, covered, total, repeats. by split_and!.
Defined.

(** ** The terms of the score under a rearrangement of the roster *)








Lemma play_variance_perm (sch : list Match) (ps ps' : list Player) :
  ps ≡ₚ ps' →
  (Spec.play_variance sch ps == Spec.play_variance sch ps')%Q.
Proof.
  intros Hp. unfold Spec.play_variance. cbv zeta.
  rewrite <- (Permutation_length Hp).
  rewrite <- (Zsum_Permutation _ _
                (Permutation_map (Spec.play_count sch) Hp)).
  set (mean := (inject_Z _ / _)%Q). clearbody mean.
  unfold Qdiv. apply Qmult_comp; [|reflexivity].
  apply Qsum_Permutation. apply Permutation_map. by apply Permutation_map.
Qed.

(** * The score in binary64 *)








(** ** Rearranging the roster in binary64 *)




(** The order can matter: with the play counts 6, 5, 6, 5, 2 summed in the
    order of the roster the score is 180, with the last three names
    rotated it is the next float above 180. *)
Lemma score_schedule_b64_order_matters :
  B64.score_schedule
    [mkMatch ("A", "D") ("B", "C"); mkMatch ("A", "B") ("C", "D");
     mkMatch ("A", "C") ("D", "E"); mkMatch ("A", "C") ("B", "E");
     mkMatch ("A", "C") ("B", "D"); mkMatch ("A", "D") ("B", "C")]
    ["A"; "B"; "C"; "D"; "E"] false = Ok 180%float ∧
  B64.score_schedule
    [mkMatch ("A", "D") ("B", "C"); mkMatch ("A", "B") ("C", "D");
     mkMatch ("A", "C") ("D", "E"); mkMatch ("A", "C") ("B", "E");
     mkMatch ("A", "C") ("B", "D"); mkMatch ("A", "D") ("B", "C")]
    ["A"; "B"; "E"; "C"; "D"] false = Ok (next_up 180)%float.
Proof. split; vm_compute; reflexivity. Qed.
